(** * printipi: I/O pin wrapper, Kossel machine constants and the DMA GPIO
      proof of concept.

    Shallow embedding of
      - src/iodrivers/iopin.cpp                       (module [IoDrv]),
      - code/firmware/src/drivers/machines/kosselpi.h (module [KosselPi]),
      - code/proof-of-concept/DMA/dma-gpio.c          (module [DmaGpio]),
    followed by the properties established about them. *)

From Stdlib Require Import ZArith NArith Lia Bool List.
From Stdlib Require Import Reals Lra.
From Stdlib Require Import Floats.SpecFloat.
From stdpp Require Import gmap sorting.

(* ===================================================================== *)
(** ** C-style [float] (IEEE-754 binary32) *)
(* ===================================================================== *)

Module Float32.

Definition prec : Z := 24.
Definition emax : Z := 128.

(** Conversion of an integer constant to [float]. *)
Definition of_Z (n : Z) : spec_float := binary_normalize prec emax n 0 false.

(** [a - b] on floats. *)
Definition sub (a b : spec_float) : spec_float := SFsub prec emax a b.

(** [a < b] and [a <= b] on floats; both are false when either side is
    a NaN. *)
Definition ltb (a b : spec_float) : bool := SFltb a b.
Definition leb (a b : spec_float) : bool := SFleb a b.

(** [std::min(a, b)] is [(b < a) ? b : a]. *)
Definition std_min (a b : spec_float) : spec_float :=
  if ltb b a then b else a.

End Float32.

(* ===================================================================== *)
(** ** iopin.cpp *)
(* ===================================================================== *)

Module IoDrv.

(** Logic levels and [operator!] on them. *)
Inductive IoLevel := IoLow | IoHigh.

Definition IoLevel_not (lev : IoLevel) : IoLevel :=
  match lev with IoLow => IoHigh | IoHigh => IoLow end.

#[global] Instance IoLevel_eq_dec : EqDecision IoLevel.
Proof. solve_decision. Defined.

(** The default state a pin returns to. *)
Inductive DefaultIoState :=
  | IO_DEFAULT_NONE
  | IO_DEFAULT_LOW
  | IO_DEFAULT_HIGH
  | IO_DEFAULT_HIGH_IMPEDANCE.

#[global] Instance DefaultIoState_eq_dec : EqDecision DefaultIoState.
Proof. solve_decision. Defined.

(** *** The primitive pin *)

(** Modelled from the spec: the platform class [PrimitiveIoPin]
    (primitiveiopin.h is not part of the sources at hand).  A primitive pin
    is either the distinguished null value or one hardware line named by a
    stable integer id. *)
Inductive PrimitiveIoPin := PrimNull | PrimLine (id : N).

#[global] Instance PrimitiveIoPin_eq_dec : EqDecision PrimitiveIoPin.
Proof. solve_decision. Defined.

(** Modelled from the spec: [PrimitiveIoPin::null()]. *)
Definition PrimitiveIoPin_null : PrimitiveIoPin := PrimNull.

(** Modelled from the spec: [PrimitiveIoPin::isNull()]. *)
Definition PrimitiveIoPin_isNull (p : PrimitiveIoPin) : bool :=
  match p with PrimNull => true | PrimLine _ => false end.

Inductive PinMode := ModeInput | ModeOutput.

#[global] Instance PinMode_eq_dec : EqDecision PinMode.
Proof. solve_decision. Defined.

(** One hardware line: its mode, and the level on it (the level driven
    when it is an output, the level seen when it is an input). *)
Record Line := mkLine { line_mode : PinMode; line_level : IoLevel }.

#[global] Instance Line_eq_dec : EqDecision Line.
Proof. solve_decision. Defined.

(** A call that reached a hardware line. *)
Inductive PrimCall :=
  | CallMakeDigitalOutput (id : N) (lev : IoLevel)
  | CallMakeDigitalInput (id : N)
  | CallDigitalWrite (id : N) (lev : IoLevel).

(** The hardware: the state of every configured line and the calls made
    on lines so far, oldest first. *)
Record Hardware := mkHardware { lines : gmap N Line; calls : list PrimCall }.

(** Level of a line nobody configured, and the idle level a null pin
    reads. *)
Definition idle_level : IoLevel := IoLow.

Definition line_of (hw : Hardware) (id : N) : Line :=
  default (mkLine ModeInput idle_level) (lines hw !! id).

(** Modelled from the spec: [PrimitiveIoPin::makeDigitalOutput(lev)]; the
    line becomes an output driven at [lev]; a no-op on null. *)
Definition prim_makeDigitalOutput
    (p : PrimitiveIoPin) (lev : IoLevel) (hw : Hardware) : Hardware :=
  match p with
  | PrimNull => hw
  | PrimLine id =>
      mkHardware (<[id := mkLine ModeOutput lev]> (lines hw))
                 (calls hw ++ [CallMakeDigitalOutput id lev])
  end.

(** Modelled from the spec: [PrimitiveIoPin::makeDigitalInput()]; the line
    becomes an input; a no-op on null. *)
Definition prim_makeDigitalInput
    (p : PrimitiveIoPin) (hw : Hardware) : Hardware :=
  match p with
  | PrimNull => hw
  | PrimLine id =>
      mkHardware
        (<[id := mkLine ModeInput (line_level (line_of hw id))]> (lines hw))
        (calls hw ++ [CallMakeDigitalInput id])
  end.

(** Modelled from the spec: [PrimitiveIoPin::digitalWrite(lev)]; the level
    of the line becomes [lev]; a no-op on null. *)
Definition prim_digitalWrite
    (p : PrimitiveIoPin) (lev : IoLevel) (hw : Hardware) : Hardware :=
  match p with
  | PrimNull => hw
  | PrimLine id =>
      mkHardware
        (<[id := mkLine (line_mode (line_of hw id)) lev]> (lines hw))
        (calls hw ++ [CallDigitalWrite id lev])
  end.

(** Modelled from the spec: [PrimitiveIoPin::digitalRead()]; the level on
    the line, and a defined idle level on null. *)
Definition prim_digitalRead (p : PrimitiveIoPin) (hw : Hardware) : IoLevel :=
  match p with
  | PrimNull => idle_level
  | PrimLine id => line_level (line_of hw id)
  end.

(** *** The wrapper *)

(** The data members of [IoPin]. *)
Record IoPin := mkIoPin {
  _pin : PrimitiveIoPin;
  _invertReads : bool;
  _invertWrites : bool;
  _defaultState : DefaultIoState
}.

(** Modelled from the spec: the inversion flags handed to the constructor
    (the enumeration is declared in iopin.h, not part of the sources at
    hand); each flag switches one inversion on. *)
Record IoPinInversions := mkInversions { inv_reads : bool; inv_writes : bool }.

Definition NO_INVERSIONS : IoPinInversions := mkInversions false false.
Definition INVERT_READS : IoPinInversions := mkInversions true false.
Definition INVERT_WRITES : IoPinInversions := mkInversions false true.
Definition inversions_or (a b : IoPinInversions) : IoPinInversions :=
  mkInversions (inv_reads a || inv_reads b) (inv_writes a || inv_writes b).

(** Modelled from the spec: the data members the constructor
    [IoPin(inversions, defaultState, pin)] of iopin.h stores. *)
Definition IoPin_init
    (inversions : IoPinInversions) (d : DefaultIoState)
    (pin : PrimitiveIoPin) : IoPin :=
  mkIoPin pin (inv_reads inversions) (inv_writes inversions) d.

Definition setDefaultState (state : DefaultIoState) (p : IoPin) : IoPin :=
  mkIoPin (_pin p) (_invertReads p) (_invertWrites p) state.

Definition isNull (p : IoPin) : bool := PrimitiveIoPin_isNull (_pin p).

Definition translateWriteToPrimitive (p : IoPin) (lev : IoLevel) : IoLevel :=
  if _invertWrites p then IoLevel_not lev else lev.

Definition translateDutyCycleToPrimitive
    (p : IoPin) (pwm : spec_float) : spec_float :=
  if _invertWrites p then Float32.sub (Float32.of_Z 1) pwm else pwm.

Definition primitiveIoPin (p : IoPin) : PrimitiveIoPin := _pin p.

Definition makeDigitalOutput
    (p : IoPin) (lev : IoLevel) (hw : Hardware) : Hardware :=
  prim_makeDigitalOutput (_pin p) (translateWriteToPrimitive p lev) hw.

Definition makeDigitalInput (p : IoPin) (hw : Hardware) : Hardware :=
  prim_makeDigitalInput (_pin p) hw.

Definition digitalRead (p : IoPin) (hw : Hardware) : IoLevel :=
  if _invertReads p
  then IoLevel_not (prim_digitalRead (_pin p) hw)
  else prim_digitalRead (_pin p) hw.

Definition digitalWrite
    (p : IoPin) (lev : IoLevel) (hw : Hardware) : Hardware :=
  prim_digitalWrite (_pin p) (translateWriteToPrimitive p lev) hw.

Definition setToDefault (p : IoPin) (hw : Hardware) : Hardware :=
  if negb (PrimitiveIoPin_isNull (_pin p)) then
    match _defaultState p with
    | IO_DEFAULT_LOW => makeDigitalOutput p IoLow hw
    | IO_DEFAULT_HIGH => makeDigitalOutput p IoHigh hw
    | IO_DEFAULT_HIGH_IMPEDANCE => makeDigitalInput p hw
    | IO_DEFAULT_NONE => hw
    end
  else hw.

(** *** Objects, the living-pin registry and the hardware *)

(** [objs] holds the [IoPin] objects by address, [livingPins] is the
    static [std::set<IoPin*>]. *)
Record World := mkWorld {
  objs : gmap N IoPin;
  livingPins : gset N;
  hw : Hardware
}.

(** Iteration order of [std::set<IoPin*>]: ascending addresses. *)
Definition livingPins_order (s : gset N) : list N :=
  merge_sort N.le (elements s).

(** [p->setToDefault()] through a pointer. *)
Definition setToDefault_at (o : gmap N IoPin) (h : Hardware) (a : N) : Hardware :=
  match o !! a with
  | Some p => setToDefault p h
  | None => h
  end.

Definition deactivateAll (w : World) : World :=
  mkWorld (objs w) (livingPins w)
          (foldl (setToDefault_at (objs w)) (hw w)
                 (livingPins_order (livingPins w))).

(** [this->setToDefault()] on the object at [this]. *)
Definition setToDefault_this (this : N) (w : World) : World :=
  mkWorld (objs w) (livingPins w) (setToDefault_at (objs w) (hw w) this).

(** [livingPins.erase(this)]. *)
Definition livingPins_erase (this : N) (w : World) : World :=
  mkWorld (objs w) (livingPins w ∖ {[this]}) (hw w).

(** The storage of the object at [this] ends. *)
Definition release (this : N) (w : World) : World :=
  mkWorld (delete this (objs w)) (livingPins w) (hw w).

(** [IoPin::~IoPin()] of the object at [this]: [setToDefault()], then
    [livingPins.erase(this)]; the object is gone afterwards. *)
Definition destroy (this : N) (w : World) : World :=
  release this (livingPins_erase this (setToDefault_this this w)).

(** Assignment to one data member of the object at [a]. *)
Definition store (a : N) (f : IoPin → IoPin) (o : gmap N IoPin) : gmap N IoPin :=
  alter f a o.

Definition load_pin (o : gmap N IoPin) (a : N) : IoPin :=
  default (mkIoPin PrimNull false false IO_DEFAULT_NONE) (o !! a).

Definition set_invertReads (b : bool) (p : IoPin) : IoPin :=
  mkIoPin (_pin p) b (_invertWrites p) (_defaultState p).
Definition set_invertWrites (b : bool) (p : IoPin) : IoPin :=
  mkIoPin (_pin p) (_invertReads p) b (_defaultState p).
Definition set_pin (q : PrimitiveIoPin) (p : IoPin) : IoPin :=
  mkIoPin q (_invertReads p) (_invertWrites p) (_defaultState p).

(** Modelled from the spec: [IoPin::null::ref()._pin], the primitive pin of
    the static null [IoPin] (declared in iopin.h): the null primitive. *)
Definition IoPin_null_ref_pin : PrimitiveIoPin := PrimitiveIoPin_null.

(** [IoPin::operator=(IoPin &&other)] with [this] and [&other] given as
    addresses; the member assignments happen one after the other on the
    object store, so that [this == &other] is covered. *)
Definition move_assign (this other : N) (w : World) : World :=
  let o0 := objs w in
  let o1 := store this (set_invertReads (_invertReads (load_pin o0 other))) o0 in
  let o2 := store this (set_invertWrites (_invertWrites (load_pin o1 other))) o1 in
  let o3 := store this (setDefaultState (_defaultState (load_pin o2 other))) o2 in
  let o4 := store this (set_pin (_pin (load_pin o3 other))) o3 in
  let o5 := store other (set_pin IoPin_null_ref_pin) o4 in
  mkWorld o5 ((livingPins w ∪ {[this]}) ∖ {[other]}) (hw w).

(** [IoPin::IoPin(IoPin &&other)] building a new object at [this]: [_pin]
    starts as the null primitive, the other members start indeterminate
    ([ir0], [iw0], [d0]), then [*this = std::move(other)]. *)
Definition move_construct
    (this other : N) (ir0 iw0 : bool) (d0 : DefaultIoState) (w : World) : World :=
  move_assign this other
    (mkWorld (<[this := mkIoPin PrimitiveIoPin_null ir0 iw0 d0]> (objs w))
             (livingPins w) (hw w)).

End IoDrv.

(* ===================================================================== *)
(** ** kosselpi.h *)
(* ===================================================================== *)

Module KosselPi.

Local Open Scope Z_scope.

(** Geometry, in micrometres, and steps per metre. *)
Definition R1000 : Z := 111000.
Definition L1000 : Z := 221000.
Definition H1000 : Z := 467330.
Definition BUILDRAD1000 : Z := 85000.
Definition STEPS_M : Z := 6265*4.
Definition STEPS_M_EXT : Z := 10000*8.

Definition MAX_ACCEL1000 : Z := 1200000.
Definition MAX_MOVE_RATE : Z := 50.
Definition HOME_RATE : Z := 10.
Definition MAX_EXT_RATE : Z := 60.

(** [matr::Matrix3Static<a00, ..., a22, denominator>]. *)
Record Matrix3Static := mkMatrix3 {
  a00 : Z; a01 : Z; a02 : Z;
  a10 : Z; a11 : Z; a12 : Z;
  a20 : Z; a21 : Z; a22 : Z;
  denom : Z
}.

Definition _BedLevelT : Matrix3Static :=
  mkMatrix3 999975003 5356 (-7070522)
            5356 999998852 1515111
            7070522 (-1515111) 999973855 1000000000.

(** Modelled from the spec: [matr::Identity3Static] (the matrix header is
    not part of the sources at hand), the identity bed-level transform. *)
Definition Identity3Static : Matrix3Static :=
  mkMatrix3 1000000000 0 0 0 1000000000 0 0 0 1000000000 1000000000.

(** Rates in mm/sec, as [float]. *)
Definition defaultMoveRate : spec_float := Float32.of_Z MAX_MOVE_RATE.
Definition maxRetractRate : spec_float := Float32.of_Z MAX_EXT_RATE.
Definition maxExtrudeRate : spec_float := Float32.of_Z MAX_EXT_RATE.

Definition clampMoveRate (inp : spec_float) : spec_float :=
  Float32.std_min inp defaultMoveRate.

Definition clampHomeRate (inp : spec_float) : spec_float :=
  Float32.of_Z HOME_RATE.

Definition doHomeBeforeFirstMovement : bool := true.

(** *** The linear-delta coordinate map *)

Local Open Scope R_scope.

(** Modelled from the spec: multiplication of a position by the bed-level
    matrix (fixed point, the entries are over [denom]). *)
Definition bed_level (M : Matrix3Static) (p : R * R * R) : R * R * R :=
  let '(x, y, z) := p in
  ((IZR (a00 M) * x + IZR (a01 M) * y + IZR (a02 M) * z) / IZR (denom M),
   (IZR (a10 M) * x + IZR (a11 M) * y + IZR (a12 M) * z) / IZR (denom M),
   (IZR (a20 M) * x + IZR (a21 M) * y + IZR (a22 M) * z) / IZR (denom M)).

(** Modelled from the spec: the tower angles 90, 210 and 330 degrees of
    the carriages A, B and C. *)
Inductive Tower := TowerA | TowerB | TowerC.

Definition tower_angle (t : Tower) : R :=
  match t with
  | TowerA => PI / 2
  | TowerB => 7 * PI / 6
  | TowerC => 11 * PI / 6
  end.

(** Modelled from the spec: [LinearDeltaCoordMap] (lineardeltacoordmap.h is
    not part of the sources at hand).  Height of the carriage of tower [t]
    for the effector at the Cartesian position [p], all in micrometres:
    [h = z' + sqrt (L^2 - (x' - R cos th)^2 - (y' - R sin th)^2)] with
    [(x', y', z')] the bed-level corrected position. *)
Definition carriage_height
    (r l : Z) (M : Matrix3Static) (t : Tower) (p : R * R * R) : R :=
  let '(x', y', z') := bed_level M p in
  z' + sqrt (IZR l ^ 2
             - (x' - IZR r * cos (tower_angle t)) ^ 2
             - (y' - IZR r * sin (tower_angle t)) ^ 2).

(** Rounding to the nearest integer, halves upwards. *)
Definition round (x : R) : Z := Int_part (x + / 2).

(** Modelled from the spec: step count of a carriage at height [h]
    micrometres, [round (h * 1e-6 * steps_per_m)]. *)
Definition carriage_steps (steps_per_m : Z) (h : R) : Z :=
  round (h / 1000000 * IZR steps_per_m).

End KosselPi.

(* ===================================================================== *)
(** ** dma-gpio.c *)
(* ===================================================================== *)

Module DmaGpio.

Local Open Scope Z_scope.

(** [uint32_t] and [uint64_t] wrap-around. *)
Definition wrap32 (z : Z) : Z := z mod 2 ^ 32.
Definition wrap64 (z : Z) : Z := z mod 2 ^ 64.

(** [~x] on a [uint32_t]. *)
Definition not32 (x : Z) : Z := wrap32 (Z.lnot x).

Definition TIMER_BASE : Z := 0x20003000.
Definition TIMER_CLO : Z := 0x00000004.
Definition TIMER_CHI : Z := 0x00000008.

Definition GPIO_BASE : Z := 0x20200000.
Definition GPIO_BASE_BUS : Z := 0x7E200000.
Definition PAGE_SIZE : Z := 4096.
Definition GPFSEL0 : Z := 0x00000000.
Definition GPSET0 : Z := 0x0000001C.
Definition GPSET1 : Z := 0x00000020.
Definition GPCLR0 : Z := 0x00000028.
Definition GPCLR1 : Z := 0x0000002C.
Definition GPLEV0 : Z := 0x00000034.

Definition DMA_BASE : Z := 0x20007000.
Definition DMACH3 : Z := 0x00000300.
Definition DMAENABLE : Z := 0x00000ff0.

Definition DMA_CS_RESET : Z := Z.shiftl 1 31.
Definition DMA_CS_ACTIVE : Z := Z.shiftl 1 0.

Definition DMA_DEBUG_READ_ERROR : Z := Z.shiftl 1 2.
Definition DMA_DEBUG_FIFO_ERROR : Z := Z.shiftl 1 1.
Definition DMA_DEBUG_READ_LAST_NOT_SET_ERROR : Z := Z.shiftl 1 0.

Definition DMA_CB_TI_DEST_INC : Z := Z.shiftl 1 4.
Definition DMA_CB_TI_SRC_INC : Z := Z.shiftl 1 8.
Definition DMA_CB_TI_SRC_DREQ : Z := Z.shiftl 1 10.
Definition DMA_CB_TI_PERMAP_NONE : Z := Z.shiftl 0 16.
Definition DMA_CB_TI_PERMAP_DSI : Z := Z.shiftl 1 16.
Definition DMA_CB_TI_NO_WIDE_BURSTS : Z := Z.shiftl 1 26.

(** A region of 32-bit words, by word index; a word never written reads
    as 0. *)
Definition load (mem : gmap Z Z) (a : Z) : Z := default 0 (mem !! a).

Definition writeBitmasked (mem : gmap Z Z) (dest mask value : Z) : gmap Z Z :=
  let cur := load mem dest in
  let new := Z.lor (Z.land cur (not32 mask)) (Z.land value mask) in
  <[dest := new]> (<[dest := new]> mem).

(** Word offsets of the members of [struct DmaChannelHeader]. *)
Definition hdr_CS : Z := 0.
Definition hdr_CONBLK_AD : Z := 1.
Definition hdr_DEBUG : Z := 8.

Record DmaControlBlock := mkDmaControlBlock {
  TI : Z;
  SOURCE_AD : Z;
  DEST_AD : Z;
  TXFR_LEN : Z;
  STRIDE : Z;
  NEXTCONBK : Z
}.

(** What the operating system answers to one [makeVirtPhysPage] call:
    the page [valloc] returns, the result of opening /proc/self/pagemap,
    what [read] stores in [pageInfo] ([None]: the read fails and stores
    nothing), and the indeterminate value [pageInfo] starts with. *)
Record PageAnswer := mkPageAnswer {
  valloc_page : Z;
  pagemap_open : Z;
  pagemap_read : option Z;
  pageInfo_uninit : Z
}.

(** [makeVirtPhysPage]: the virtual and the physical address it hands
    back.  No result of [open], [lseek] or [read] is looked at. *)
Definition makeVirtPhysPage (a : PageAnswer) : Z * Z :=
  let pageInfo :=
    if pagemap_open a <? 0 then pageInfo_uninit a
    else match pagemap_read a with
         | Some v => v
         | None => pageInfo_uninit a
         end in
  (valloc_page a, wrap32 (wrap64 (pageInfo * PAGE_SIZE))).

(** How a run ends: [exit(code)] or [return code] from [main], still
    busy-waiting when the observation stops, or killed by a segmentation
    fault. *)
Inductive Outcome := Exited (code : Z) | Waiting | Faulted.

(** [mapPeripheral]: [mmap] answers [None] for [MAP_FAILED], and then the
    process exits with 1. *)
Definition mapPeripheral (answer : option Z) : Outcome + Z :=
  match answer with
  | None => inl (Exited 1)
  | Some mapped => inr mapped
  end.

(** The answers of the operating system and of the DMA peripheral to one
    run of [main]: the results of the system calls, what the words behind
    [gpioBaseMem] and [dmaBaseMem] read as when [main] starts, the successive
    values read from the channel's CS register, and which words behind
    [dmaBaseMem] past the one page [mapPeripheral] maps lie in some other
    writable mapping of the process ([beyond_dma_page]). *)
Record Env := mkEnv {
  open_devmem : Z;
  mmap_gpio : option Z;
  mmap_dma : option Z;
  mmap_timer : option Z;
  gpio_regs : gmap Z Z;
  dma_regs : gmap Z Z;
  src_page : PageAnswer;
  cb_page : PageAnswer;
  cs_reads : nat → Z;
  beyond_dma_page : Z → bool
}.

(** Word [idx] of a [uint32_t] pointer to a mapping of [PAGE_SIZE] bytes
    lies in that mapping. *)
Definition in_page (idx : Z) : bool := (0 <=? idx) && (4 * idx <? PAGE_SIZE).

(** Word [idx] behind [dmaBaseMem] can be read and written; an access to
    any other word is a segmentation fault. *)
Definition dma_accessible (e : Env) (idx : Z) : bool :=
  in_page idx || beyond_dma_page e idx.

(** What [main] has written when it stops: per word behind [gpioBaseMem]
    and [dmaBaseMem] the value stored last (a register may read as something
    else), the stores made through [dmaBaseMem] in their order, the source
    array and the control block. *)
Record Machine := mkMachine {
  gpio : gmap Z Z;
  dma : gmap Z Z;
  srcArray : list Z;
  cb1 : option DmaControlBlock;
  dma_stores : list (Z * Z)
}.

(** The two stores of one [writeBitmasked] call. *)
Definition writeBitmasked_stores
    (mem : gmap Z Z) (dest mask value : Z) : list (Z * Z) :=
  let new := load (writeBitmasked mem dest mask value) dest in
  [(dest, new); (dest, new)].

(** [while (dmaHeader->CS & DMA_CS_ACTIVE) {}], the [k]-th read of the
    register being [cs k]. *)
Fixpoint wait_inactive (cs : nat → Z) (k fuel : nat) : Outcome + unit :=
  match fuel with
  | O => inl Waiting
  | S fuel' =>
      if Z.land (cs k) DMA_CS_ACTIVE =? 0 then inr tt
      else wait_inactive cs (S k) fuel'
  end.

(** The control block [main] fills in. *)
Definition main_cb1 (physSrcPage : Z) : DmaControlBlock :=
  mkDmaControlBlock
    (Z.lor (Z.lor DMA_CB_TI_SRC_INC DMA_CB_TI_DEST_INC) DMA_CB_TI_NO_WIDE_BURSTS)
    (wrap32 physSrcPage)
    (GPIO_BASE_BUS + GPSET0)
    24
    0
    0.

(** [main].  The words behind [gpioBaseMem], [dmaBaseMem + DMACH3] and
    [timerBaseMem] that it touches lie in the pages mapped; the word at
    [dmaBaseMem + DMAENABLE] does not, and the run is killed there unless
    something else is mapped at that place. *)
Definition main (e : Env) (fuel : nat) : Outcome * Machine :=
  let m0 := mkMachine (gpio_regs e) (dma_regs e) [] None [] in
  if open_devmem e <? 0 then (Exited 1, m0) else
  match mapPeripheral (mmap_gpio e) with
  | inl out => (out, m0)
  | inr gpioBaseMem =>
  match mapPeripheral (mmap_dma e) with
  | inl out => (out, m0)
  | inr dmaBaseMem =>
  match mapPeripheral (mmap_timer e) with
  | inl out => (out, m0)
  | inr timerBaseMem =>
      let fselMask := Z.shiftl 0x7 (3*4) in
      let fselValue := Z.shiftl 0x1 (3*4) in
      let g1 :=
        <[GPFSEL0 := Z.lor (Z.land (load (gpio_regs e) GPFSEL0) (not32 fselMask))
                           fselValue]> (gpio_regs e) in
      let '(virtSrcPage, physSrcPage) := makeVirtPhysPage (src_page e) in
      let src := [Z.shiftl 1 4; 0; 0; Z.shiftl 1 4; 0; 0] in
      let '(virtCbPage, physCbPage) := makeVirtPhysPage (cb_page e) in
      let cb := main_cb1 physSrcPage in
      if negb (dma_accessible e DMAENABLE)
      then (Faulted, mkMachine g1 (dma_regs e) src (Some cb) [])
      else
      let d1 := writeBitmasked (dma_regs e) DMAENABLE (Z.shiftl 1 3) (Z.shiftl 1 3) in
      let d2 := <[DMACH3 + hdr_CS := DMA_CS_RESET]> d1 in
      let d3 :=
        <[DMACH3 + hdr_DEBUG :=
            Z.lor (Z.lor DMA_DEBUG_READ_ERROR DMA_DEBUG_FIFO_ERROR)
                  DMA_DEBUG_READ_LAST_NOT_SET_ERROR]> d2 in
      let d4 := <[DMACH3 + hdr_CONBLK_AD := wrap32 physCbPage]> d3 in
      let d5 := <[DMACH3 + hdr_CS := DMA_CS_ACTIVE]> d4 in
      let stores :=
        writeBitmasked_stores (dma_regs e) DMAENABLE (Z.shiftl 1 3) (Z.shiftl 1 3)
        ++ [(DMACH3 + hdr_CS, DMA_CS_RESET);
            (DMACH3 + hdr_DEBUG,
             Z.lor (Z.lor DMA_DEBUG_READ_ERROR DMA_DEBUG_FIFO_ERROR)
                   DMA_DEBUG_READ_LAST_NOT_SET_ERROR);
            (DMACH3 + hdr_CONBLK_AD, wrap32 physCbPage);
            (DMACH3 + hdr_CS, DMA_CS_ACTIVE)] in
      let m := mkMachine g1 d5 src (Some cb) stores in
      match wait_inactive (cs_reads e) 0 fuel with
      | inl out => (out, m)
      | inr _ => (Exited 0, m)
      end
  end end end.

(** [readSysTime]: the two words at [timerBaseMem + TIMER_CHI] and
    [timerBaseMem + TIMER_CLO] put together as a [uint64_t]. *)
Definition readSysTime (timer : gmap Z Z) : Z :=
  wrap64 (wrap64 (Z.shiftl (load timer TIMER_CHI) 32) + load timer TIMER_CLO).


End DmaGpio.

(* ===================================================================== *)
(** ** Vocabulary of the properties *)
(* ===================================================================== *)

Module IoDrvProps.

Import IoDrv.

(** The pin [p] is a digital output at the (logical) level [lev]: its
    line is an output driven at the level [p] writes for [lev]. *)
Definition is_output_at (p : IoPin) (lev : IoLevel) (h : Hardware) : Prop :=
  match _pin p with
  | PrimLine id =>
      line_of h id = mkLine ModeOutput (translateWriteToPrimitive p lev)
  | PrimNull => False
  end.

(** The pin [p] is a digital input. *)
Definition is_input (p : IoPin) (h : Hardware) : Prop :=
  match _pin p with
  | PrimLine id => line_mode (line_of h id) = ModeInput
  | PrimNull => False
  end.

(** The pin [p] is in its configured default state. *)
Definition in_default_state (p : IoPin) (h : Hardware) : Prop :=
  match _defaultState p with
  | IO_DEFAULT_LOW => is_output_at p IoLow h
  | IO_DEFAULT_HIGH => is_output_at p IoHigh h
  | IO_DEFAULT_HIGH_IMPEDANCE => is_input p h
  | IO_DEFAULT_NONE => True
  end.

(** The hardware line behind the pointer [a], if it has one. *)
Definition line_at (o : gmap N IoPin) (a : N) : option N :=
  match o !! a with
  | Some p => match _pin p with PrimLine id => Some id | PrimNull => None end
  | None => None
  end.

(** The lines referenced by the living pins, one entry per pin. *)
Definition living_lines (w : World) : list N :=
  omap (line_at (objs w)) (elements (livingPins w)).

(** At most one living pin references any given hardware line. *)
Definition lines_unshared (w : World) : Prop := NoDup (living_lines w).

(** Ownership went from the object at [other] to the object at [this]
    between [w] and [w']. *)
Definition move_transfers (w : World) (this other : N) (w' : World) : Prop :=
  ∃ src dst' src',
    objs w !! other = Some src ∧
    objs w' !! this = Some dst' ∧
    objs w' !! other = Some src' ∧
    _pin dst' = _pin src ∧
    _invertReads dst' = _invertReads src ∧
    _invertWrites dst' = _invertWrites src ∧
    _defaultState dst' = _defaultState src ∧
    this ∈ livingPins w' ∧
    isNull src' = true ∧
    other ∉ livingPins w'.

(** A registry of four pins on four lines: an inverted-write pin that
    defaults to low, a pin that defaults to high a pin that defaults to high
    impedance and a pin without a default. *)
Definition pinA : IoPin := IoPin_init INVERT_WRITES IO_DEFAULT_LOW (PrimLine 4).
Definition pinB : IoPin := IoPin_init NO_INVERSIONS IO_DEFAULT_HIGH (PrimLine 7).
Definition pinC : IoPin := IoPin_init INVERT_READS IO_DEFAULT_HIGH_IMPEDANCE (PrimLine 9).
Definition pinD : IoPin := IoPin_init NO_INVERSIONS IO_DEFAULT_NONE (PrimLine 11).

Definition hw0 : Hardware :=
  mkHardware {[ 11%N := mkLine ModeOutput IoHigh ]} [].

Definition world0 : World :=
  mkWorld {[ 16%N := pinA; 32%N := pinB; 48%N := pinC; 64%N := pinD ]}
          {[ 16%N; 32%N; 48%N; 64%N ]}
          hw0.

(** The single-pin world in which a pin is move-assigned to itself. *)
Definition world1 : World :=
  mkWorld {[ 16%N := pinA ]} {[ 16%N ]} hw0.

(** The duty cycles 0.2 and 0.8 as [float]. *)
Definition duty_0_2 : spec_float := S754_finite false 13421773 (-26).
Definition duty_0_8 : spec_float := S754_finite false 13421773 (-24).

End IoDrvProps.

Module DmaGpioProps.

Import DmaGpio.
Local Open Scope Z_scope.

Definition uint32 (z : Z) : Prop := 0 <= z < 2 ^ 32.




(** Past the DMA page, the word at [dmaBaseMem + DMAENABLE] alone lies in
    another mapping of the process; or nothing does. *)
Definition enable_word_mapped : Z → bool := λ idx, idx =? DMAENABLE.
Definition nothing_beyond : Z → bool := λ _, false.

(** A run in which everything works: /dev/mem opens, the three pages
    map, both pagemap reads succeed, the word at [dmaBaseMem + DMAENABLE]
    happens to be mapped, and the channel is seen active twice before it
    goes idle. *)
Definition page_ok (virt frame : Z) : PageAnswer :=
  mkPageAnswer virt 4 (Some frame) 0.

Definition env_ok : Env :=
  mkEnv 3 (Some 0xb6f00000) (Some 0xb6eff000) (Some 0xb6efe000)
        ∅ ∅
        (page_ok 0x01a3c000 0x1b2c3) (page_ok 0x01a3e000 0x1b2c7)
        (λ k, if (k <? 2)%nat then 1 else 0)
        enable_word_mapped.

(** The run of [env_ok] with nothing mapped past the DMA page. *)
Definition env_unmapped : Env :=
  mkEnv 3 (Some 0xb6f00000) (Some 0xb6eff000) (Some 0xb6efe000)
        ∅ ∅
        (page_ok 0x01a3c000 0x1b2c3) (page_ok 0x01a3e000 0x1b2c7)
        (λ k, if (k <? 2)%nat then 1 else 0)
        nothing_beyond.

(** The same run, except that /proc/self/pagemap cannot be opened, so
    that [lseek] and [read] fail too and [pageInfo] keeps whatever it
    held. *)
Definition page_unreadable (virt garbage : Z) : PageAnswer :=
  mkPageAnswer virt (-1) None garbage.

Definition env_pagemap_fails : Env :=
  mkEnv 3 (Some 0xb6f00000) (Some 0xb6eff000) (Some 0xb6efe000)
        ∅ ∅
        (page_unreadable 0x01a3c000 0xdeadbeef)
        (page_unreadable 0x01a3e000 0xdeadbeef)
        (λ k, if (k <? 2)%nat then 1 else 0)
        enable_word_mapped.

(** A run of [env_ok] in which the channel reports an error: the CS
    register reads with ERROR (bit 8) set and ACTIVE clear. *)
Definition env_dma_error : Env :=
  mkEnv 3 (Some 0xb6f00000) (Some 0xb6eff000) (Some 0xb6efe000)
        ∅ ∅
        (page_ok 0x01a3c000 0x1b2c3) (page_ok 0x01a3e000 0x1b2c7)
        (λ _, Z.shiftl 1 8)
        enable_word_mapped.

(** The run [e] with other answers to the two [makeVirtPhysPage] calls. *)
Definition with_pages (e : Env) (sp cp : PageAnswer) : Env :=
  mkEnv (open_devmem e) (mmap_gpio e) (mmap_dma e) (mmap_timer e)
        (gpio_regs e) (dma_regs e) sp cp (cs_reads e) (beyond_dma_page e).

(** The pagemap lookup of a page failed. *)
Definition pagemap_failed (a : PageAnswer) : Prop :=
  pagemap_open a < 0 ∨ pagemap_read a = None.

End DmaGpioProps.

(* ===================================================================== *)
(** ** Vocabulary of the invariants *)
(* ===================================================================== *)

Module IoDrvInvariants.

Import IoDrv IoDrvProps.

(** Every pointer in the registry points to an object that is alive. *)
Definition registry_valid (w : World) : Prop :=
  ∀ a, a ∈ livingPins w → is_Some (objs w !! a).

(** No living pin references the line [id]. *)
Definition line_unowned (w : World) (id : N) : Prop :=
  ∀ a, a ∈ livingPins w → line_at (objs w) a ≠ Some id.

(** A world of two pins in which pin B is about to take over the line of
    pin A. *)
Definition world2 : World :=
  mkWorld {[ 16%N := pinA; 32%N := pinB ]} {[ 16%N; 32%N ]} hw0.

End IoDrvInvariants.

(* ===================================================================== *)
(** ** Properties of iopin.cpp *)
(* ===================================================================== *)

Section IoPinFacts.

Import IoDrv IoDrvProps.

Implicit Types (p q : IoPin) (h : Hardware) (lev : IoLevel) (w : World).

Lemma IoLevel_not_neq lev : IoLevel_not lev ≠ lev.
Proof. by destruct lev. Qed.

Lemma IoLevel_not_involutive lev : IoLevel_not (IoLevel_not lev) = lev.
Proof. by destruct lev. Qed.

Lemma isNull_false_line p :
  isNull p = false → ∃ id, _pin p = PrimLine id.
Proof. unfold isNull. destruct (_pin p); [done | eauto]. Qed.

(** Each primitive call touches the line of its pin and no other. *)
Lemma prim_makeDigitalOutput_other prim lev h id :
  prim ≠ PrimLine id →
  lines (prim_makeDigitalOutput prim lev h) !! id = lines h !! id.
Proof.
  destruct prim as [|id']; [done |]. intros Hne. simpl.
  apply lookup_insert_ne. congruence.
Qed.

Lemma prim_makeDigitalInput_other prim h id :
  prim ≠ PrimLine id →
  lines (prim_makeDigitalInput prim h) !! id = lines h !! id.
Proof.
  destruct prim as [|id']; [done |]. intros Hne. simpl.
  apply lookup_insert_ne. congruence.
Qed.

Lemma setToDefault_other p h id :
  _pin p ≠ PrimLine id →
  lines (setToDefault p h) !! id = lines h !! id.
Proof.
  intros Hne. unfold setToDefault.
  destruct (negb _); [| done].
  destruct (_defaultState p); [done | | |];
    unfold makeDigitalOutput, makeDigitalInput;
    auto using prim_makeDigitalOutput_other, prim_makeDigitalInput_other.
Qed.

Lemma setToDefault_at_other o h a id :
  line_at o a ≠ Some id →
  lines (setToDefault_at o h a) !! id = lines h !! id.
Proof.
  unfold line_at, setToDefault_at. destruct (o !! a) as [p|]; [| done].
  intros Hne. apply setToDefault_other. destruct (_pin p); congruence.
Qed.

Lemma foldl_setToDefault_other o l : ∀ h id,
  id ∉ omap (line_at o) l →
  lines (foldl (setToDefault_at o) h l) !! id = lines h !! id.
Proof.
  induction l as [|b l IH]; intros h id Hid; [done |]. simpl in *.
  destruct (line_at o b) as [idb|] eqn:Hb.
  - apply not_elem_of_cons in Hid as [Hne Hid].
    rewrite IH by done. apply setToDefault_at_other. congruence.
  - rewrite IH by done. apply setToDefault_at_other. congruence.
Qed.

(** Being in the default state only depends on the pin's own line. *)
Lemma in_default_state_line p h h' id :
  _pin p = PrimLine id →
  lines h' !! id = lines h !! id →
  in_default_state p h → in_default_state p h'.
Proof.
  intros Hp Hl. unfold in_default_state, is_output_at, is_input, line_of.
  rewrite Hp, Hl. done.
Qed.

Lemma makeDigitalOutput_is_output p lev h :
  isNull p = false → is_output_at p lev (makeDigitalOutput p lev h).
Proof.
  intros [id Hid]%isNull_false_line.
  unfold is_output_at, makeDigitalOutput, line_of. rewrite Hid. simpl.
  by rewrite lookup_insert_eq.
Qed.

Lemma makeDigitalInput_is_input p h :
  isNull p = false → is_input p (makeDigitalInput p h).
Proof.
  intros [id Hid]%isNull_false_line.
  unfold is_input, makeDigitalInput, line_of. rewrite Hid. simpl.
  by rewrite lookup_insert_eq.
Qed.

Lemma setToDefault_in_default_state p h :
  isNull p = false → in_default_state p (setToDefault p h).
Proof.
  intros Hnn. unfold in_default_state, setToDefault.
  unfold isNull in Hnn. rewrite Hnn. simpl.
  destruct (_defaultState p);
    auto using makeDigitalOutput_is_output, makeDigitalInput_is_input.
Qed.

(** One pass over the registry leaves every pin met on the way in its
    default state, provided no later pin shares its line. *)
Lemma foldl_setToDefault_in_default_state o l : ∀ h a p,
  NoDup (omap (line_at o) l) →
  a ∈ l → o !! a = Some p → isNull p = false →
  in_default_state p (foldl (setToDefault_at o) h l).
Proof.
  induction l as [|b l IH]; intros h a p Hnd Ha Hp Hnn.
  { by destruct (not_elem_of_nil a). }
  destruct (isNull_false_line p Hnn) as [id Hid].
  assert (Hline : line_at o a = Some id).
  { unfold line_at. by rewrite Hp, Hid. }
  simpl. destruct (decide (a = b)) as [<-|Hab].
  - simpl in Hnd. rewrite Hline in Hnd. apply NoDup_cons in Hnd as [Hfresh _].
    eapply in_default_state_line; [done | by apply foldl_setToDefault_other |].
    unfold setToDefault_at. rewrite Hp.
    by apply setToDefault_in_default_state.
  - apply elem_of_cons in Ha as [? | Ha]; [done |].
    apply (IH _ a); [| done ..].
    simpl in Hnd. destruct (line_at o b); [by apply NoDup_cons in Hnd as [_ ?] | done].
Qed.

Lemma livingPins_order_elem_of (s : gset N) a :
  a ∈ livingPins_order s ↔ a ∈ s.
Proof.
  unfold livingPins_order. rewrite merge_sort_Permutation.
  apply elem_of_elements.
Qed.


Lemma livingPins_order_Sorted (s : gset N) : Sorted N.le (livingPins_order s).
Proof.
  unfold livingPins_order. apply Sorted_merge_sort, _.
Qed.

End IoPinFacts.

Section IoPinClaims.

Import IoDrv IoDrvProps.

Implicit Types (p q : IoPin) (h : Hardware) (lev : IoLevel) (w : World).



(** The three lines of [world0] after [deactivateAll]: line 4 is driven
    high, the low of an inverted-write pin. *)
Example deactivateAll_world0 :
  lines (hw (deactivateAll world0)) =
    {[ 4%N := mkLine ModeOutput IoHigh;
       7%N := mkLine ModeOutput IoHigh;
       9%N := mkLine ModeInput IoLow;
       11%N := mkLine ModeOutput IoHigh ]} ∧
  calls (hw (deactivateAll world0)) =
    [CallMakeDigitalOutput 4 IoHigh; CallMakeDigitalOutput 7 IoHigh;
     CallMakeDigitalInput 9].
Proof. split; [apply (bool_decide_unpack _) |]; by vm_compute. Qed.

End IoPinClaims.

Section IoPinInversion.

Import IoDrv IoDrvProps.

Implicit Types (p q : IoPin) (h : Hardware) (lev : IoLevel) (w : World).

(** C2.  Writes are negated when [_invertWrites] is set and passed on
    unchanged otherwise, and a written level is the negation of the
    requested one exactly when the flag is set; a duty cycle [d] becomes
    [1 - d] when [_invertWrites] is set and stays [d] otherwise; a read is
    the negation of the primitive pin's read exactly when [_invertReads] is
    set.  A pin built with INVERT_READS only leaves writes and duty cycles
    alone, a pin built with INVERT_WRITES only leaves reads alone, and a
    pin built with both flags inverts both. *)
Theorem inversion_laws p lev (pwm : spec_float) h :
  translateWriteToPrimitive p lev
    = (if _invertWrites p then IoLevel_not lev else lev) ∧
  (translateWriteToPrimitive p lev = IoLevel_not lev ↔ _invertWrites p = true) ∧
  (translateWriteToPrimitive p lev = lev ↔ _invertWrites p = false) ∧
  translateDutyCycleToPrimitive p pwm
    = (if _invertWrites p then Float32.sub (Float32.of_Z 1) pwm else pwm) ∧
  (Float32.sub (Float32.of_Z 1) pwm ≠ pwm →
     (translateDutyCycleToPrimitive p pwm = Float32.sub (Float32.of_Z 1) pwm
        ↔ _invertWrites p = true)) ∧
  digitalRead p h
    = (if _invertReads p then IoLevel_not (prim_digitalRead (_pin p) h)
       else prim_digitalRead (_pin p) h) ∧
  (digitalRead p h = IoLevel_not (prim_digitalRead (_pin p) h)
     ↔ _invertReads p = true) ∧
  digitalWrite p lev h
    = prim_digitalWrite (_pin p) (translateWriteToPrimitive p lev) h ∧
  (∀ d prim,
     let r := IoPin_init INVERT_READS d prim in
     translateWriteToPrimitive r lev = lev ∧
     translateDutyCycleToPrimitive r pwm = pwm ∧
     digitalRead r h = IoLevel_not (prim_digitalRead prim h)) ∧
  (∀ d prim,
     let r := IoPin_init INVERT_WRITES d prim in
     translateWriteToPrimitive r lev = IoLevel_not lev ∧
     translateDutyCycleToPrimitive r pwm = Float32.sub (Float32.of_Z 1) pwm ∧
     digitalRead r h = prim_digitalRead prim h) ∧
  (∀ d prim,
     let r := IoPin_init (inversions_or INVERT_READS INVERT_WRITES) d prim in
     translateWriteToPrimitive r lev = IoLevel_not lev ∧
     translateDutyCycleToPrimitive r pwm = Float32.sub (Float32.of_Z 1) pwm ∧
     digitalRead r h = IoLevel_not (prim_digitalRead prim h)).
Proof.
  unfold translateWriteToPrimitive, translateDutyCycleToPrimitive,
    digitalRead, digitalWrite.
  pose proof (IoLevel_not_neq lev) as Hlev.
  pose proof (IoLevel_not_neq (prim_digitalRead (_pin p) h)) as Hrd.
  split; [done |]. split.
  { destruct (_invertWrites p); split; congruence. }
  split.
  { destruct (_invertWrites p); split; congruence. }
  split; [done |]. split.
  { intros Hne. destruct (_invertWrites p); split; congruence. }
  split; [done |]. split.
  { destruct (_invertReads p); split; congruence. }
  split; [done |]. by repeat split.
Qed.

(** The scenarios of the test suite: with INVERT_READS only, low stays low,
    high stays high and 0.2 stays 0.2; with INVERT_WRITES only, low becomes
    high, high becomes low and 0.2 becomes 0.8. *)
Example inversion_scenarios :
  let r := IoPin_init INVERT_READS IO_DEFAULT_NONE PrimitiveIoPin_null in
  let i := IoPin_init INVERT_WRITES IO_DEFAULT_NONE PrimitiveIoPin_null in
  translateWriteToPrimitive r IoLow = IoLow ∧
  translateWriteToPrimitive r IoHigh = IoHigh ∧
  translateDutyCycleToPrimitive r duty_0_2 = duty_0_2 ∧
  translateWriteToPrimitive i IoLow = IoHigh ∧
  translateWriteToPrimitive i IoHigh = IoLow ∧
  translateDutyCycleToPrimitive i duty_0_2 = duty_0_8.
Proof. by vm_compute. Qed.

(** C5.  No operation of a pin can fail (each is a total function of the
    pin and the hardware), and a pin whose primitive pin is null is silent:
    [digitalWrite], [makeDigitalOutput], [makeDigitalInput] and
    [setToDefault] leave the hardware as it is, lines and calls alike,
    [digitalRead] returns the idle level (negated for an inverted-read pin)
    whatever the hardware holds, and [isNull] returns true. *)
Theorem null_pins_are_silent p lev h :
  _pin p = PrimitiveIoPin_null →
  isNull p = true ∧
  digitalWrite p lev h = h ∧
  makeDigitalOutput p lev h = h ∧
  makeDigitalInput p h = h ∧
  setToDefault p h = h ∧
  digitalRead p h
    = (if _invertReads p then IoLevel_not idle_level else idle_level) ∧
  (∀ h', digitalRead p h' = digitalRead p h).
Proof.
  intros Hnull.
  unfold isNull, digitalWrite, makeDigitalOutput, makeDigitalInput,
    setToDefault, digitalRead.
  rewrite Hnull. by repeat split.
Qed.

Lemma null_pins_are_silent_witness :
  let p := IoPin_init INVERT_READS IO_DEFAULT_LOW PrimitiveIoPin_null in
  _pin p = PrimitiveIoPin_null ∧
  setToDefault p hw0 = hw0 ∧
  digitalWrite p IoHigh hw0 = hw0 ∧
  digitalRead p hw0 = IoHigh.
Proof.
  pose (p := IoPin_init INVERT_READS IO_DEFAULT_LOW PrimitiveIoPin_null).
  destruct (null_pins_are_silent p IoHigh hw0 eq_refl)
    as (_ & Hw & _ & _ & Hs & Hr & _).
  exact (conj eq_refl (conj Hs (conj Hw Hr))).
Defined.

(** C10.  A pin whose default state is none of LOW, HIGH and
    HIGH_IMPEDANCE is left alone: [setToDefault] returns the hardware as it
    found it (no line changes and no call is made), so does the destructor,
    and [deactivateAll] does what it would do with that pin skipped. *)
Theorem none_default_leaves_the_line_alone w a p :
  objs w !! a = Some p →
  isNull p = false →
  _defaultState p ≠ IO_DEFAULT_LOW →
  _defaultState p ≠ IO_DEFAULT_HIGH →
  _defaultState p ≠ IO_DEFAULT_HIGH_IMPEDANCE →
  (∀ h, setToDefault p h = h) ∧
  hw (destroy a w) = hw w ∧
  hw (deactivateAll w) =
    foldl (setToDefault_at (objs w)) (hw w)
          (filter (λ b, b ≠ a) (livingPins_order (livingPins w))) ∧
  ((∀ b q, b ∈ livingPins w → objs w !! b = Some q →
           _defaultState q = IO_DEFAULT_NONE) →
   hw (deactivateAll w) = hw w).
Proof.
  intros Hobj _ Hl Hh Hz.
  assert (Hnone : ∀ h, setToDefault p h = h).
  { intros h. unfold setToDefault.
    destruct (negb _); [| done]. by destruct (_defaultState p). }
  split; [done |]. split; [| split].
  - simpl. unfold setToDefault_at. by rewrite Hobj.
  - simpl. generalize (hw w).
    induction (livingPins_order (livingPins w)) as [|b l IH]; intros h; [done |].
    destruct (decide (b = a)) as [-> | Hb].
    + rewrite filter_cons_False by (intros Hne; by apply Hne).
      simpl. rewrite IH. unfold setToDefault_at at 2. by rewrite Hobj, Hnone.
    + rewrite filter_cons_True by done. simpl. apply IH.
  - intros Hall. simpl.
    assert (Hin : ∀ b, b ∈ livingPins_order (livingPins w) → b ∈ livingPins w).
    { intros b. apply livingPins_order_elem_of. }
    revert Hin. generalize (hw w).
    induction (livingPins_order (livingPins w)) as [|b l IH]; intros h Hin; [done |].
    simpl. rewrite IH by (intros c Hc; apply Hin; by right).
    unfold setToDefault_at. destruct (objs w !! b) as [q|] eqn:Hq; [| done].
    unfold setToDefault. rewrite (Hall b q); [by destruct (negb _) | | done].
    apply Hin. by left.
Qed.

Lemma none_default_leaves_the_line_alone_witness :
  objs world0 !! 64%N = Some pinD ∧
  isNull pinD = false ∧
  _defaultState pinD = IO_DEFAULT_NONE ∧
  setToDefault pinD hw0 = hw0 ∧
  hw (destroy 64 world0) = hw world0.
Proof.
  destruct (none_default_leaves_the_line_alone world0 64%N pinD)
    as (Hs & Hd & _); try (reflexivity || discriminate).
  exact (conj eq_refl (conj eq_refl (conj eq_refl (conj (Hs hw0) Hd)))).
Defined.

End IoPinInversion.

Section IoPinMove.

Import IoDrv IoDrvProps.

Implicit Types (p q : IoPin) (h : Hardware) (w : World).

(** The object store after a move-assignment between two objects. *)
Lemma move_assign_distinct w this other src dst :
  objs w !! other = Some src →
  objs w !! this = Some dst →
  this ≠ other →
  objs (move_assign this other w) !! this
    = Some (mkIoPin (_pin src) (_invertReads src) (_invertWrites src)
                    (_defaultState src)) ∧
  objs (move_assign this other w) !! other
    = Some (mkIoPin PrimitiveIoPin_null (_invertReads src)
                    (_invertWrites src) (_defaultState src)) ∧
  (∀ c, c ≠ this → c ≠ other →
        objs (move_assign this other w) !! c = objs w !! c) ∧
  livingPins (move_assign this other w)
    = (livingPins w ∪ {[this]}) ∖ {[other]} ∧
  hw (move_assign this other w) = hw w.
Proof.
  intros Hsrc Hdst Hne. unfold move_assign, store, load_pin. simpl.
  assert (Hne' : other ≠ this) by congruence.
  repeat (rewrite ?lookup_alter_eq, ?lookup_alter_ne by done;
          rewrite ?Hsrc, ?Hdst; simpl).
  split; [done |]. split; [done |]. split; [| done].
  intros c Hc1 Hc2. rewrite !lookup_alter_ne by congruence. done.
Qed.

(** C4.  A move transfers ownership of the hardware line from its source
    to its destination, two objects: after a move-construction, and after a
    move-assignment whose destination is another object than its source,
    the destination holds the primitive pin, the two inversion flags and
    the default state the source had and is in the registry, while the
    source is null and is not in the registry; the hardware is not
    touched. *)
Theorem move_transfers_ownership w this other src :
  objs w !! other = Some src →
  (∀ dst, objs w !! this = Some dst → this ≠ other →
     move_transfers w this other (move_assign this other w) ∧
     hw (move_assign this other w) = hw w) ∧
  (∀ ir0 iw0 d0, objs w !! this = None →
     move_transfers w this other (move_construct this other ir0 iw0 d0 w) ∧
     hw (move_construct this other ir0 iw0 d0 w) = hw w).
Proof.
  intros Hsrc. split.
  - intros dst Hdst Hne.
    destruct (move_assign_distinct w this other src dst Hsrc Hdst Hne)
      as (Ht & Ho & _ & Hl & Hh).
    split; [| done].
    eexists src, _, _. rewrite Ht, Ho, Hl.
    repeat split; try done.
    + apply elem_of_difference. split.
      * apply elem_of_union_r. by apply elem_of_singleton.
      * by intros ?%elem_of_singleton.
    + apply not_elem_of_difference. right. by apply elem_of_singleton.
  - intros ir0 iw0 d0 Hfresh.
    assert (Hne : this ≠ other) by congruence.
    unfold move_construct.
    set (w1 := mkWorld _ _ _).
    destruct (move_assign_distinct w1 this other src
                (mkIoPin PrimitiveIoPin_null ir0 iw0 d0))
      as (Ht & Ho & _ & Hl & Hh); [| | done |].
    { simpl. by rewrite lookup_insert_ne. }
    { simpl. by rewrite lookup_insert_eq. }
    split; [| done].
    eexists src, _, _. rewrite Ht, Ho, Hl.
    repeat split; try done.
    + apply elem_of_difference. split.
      * apply elem_of_union_r. by apply elem_of_singleton.
      * by intros ?%elem_of_singleton.
    + apply not_elem_of_difference. right. by apply elem_of_singleton.
Qed.

Lemma move_transfers_ownership_witness :
  objs world0 !! 16%N = Some pinA ∧
  objs world0 !! 32%N = Some pinB ∧
  32%N ≠ 16%N ∧
  objs world0 !! 80%N = None ∧
  move_transfers world0 32 16 (move_assign 32 16 world0) ∧
  move_transfers world0 80 16
    (move_construct 80 16 false false IO_DEFAULT_NONE world0).
Proof.
  assert (H1 : objs world0 !! 16%N = Some pinA) by reflexivity.
  assert (H2 : objs world0 !! 32%N = Some pinB) by reflexivity.
  assert (H3 : 32%N ≠ 16%N) by discriminate.
  assert (H4 : objs world0 !! 80%N = None) by reflexivity.
  destruct (move_transfers_ownership world0 32%N 16%N pinA H1) as [Ha _].
  destruct (move_transfers_ownership world0 80%N 16%N pinA H1) as [_ Hc].
  exact (conj H1 (conj H2 (conj H3 (conj H4
           (conj (proj1 (Ha pinB H2 H3))
                 (proj1 (Hc false false IO_DEFAULT_NONE H4))))))).
Defined.

(** What a move-assignment of a pin to itself leaves behind: the only
    pin of [world1] ends up null and out of the registry, and its line is
    owned by nobody. *)
Example self_move_assign_world1 :
  objs (move_assign 16 16 world1) !! 16%N
    = Some (mkIoPin PrimNull false true IO_DEFAULT_LOW) ∧
  livingPins (move_assign 16 16 world1) = ∅.
Proof. split; [| apply (bool_decide_unpack _)]; by vm_compute. Qed.

End IoPinMove.

(* ===================================================================== *)
(** ** Properties of kosselpi.h *)
(* ===================================================================== *)

Section FloatOrder.

(** Swapping the sides of a comparison of two floats swaps its result. *)
Lemma SFcompare_antisym (a b : spec_float) :
  SFcompare b a = option_map CompOpp (SFcompare a b).
Proof.
  destruct a as [sa | sa | | sa ma ea], b as [sb | sb | | sb mb eb];
    simpl; try done; try (by destruct sa); try (by destruct sb);
    try (by destruct sa, sb).
  destruct sa, sb; simpl; try done;
    rewrite (Z.compare_antisym ea eb);
    destruct (ea ?= eb)%Z; simpl; try done;
    pose proof (Pos.compare_cont_antisym mb ma Eq) as Hm; simpl in Hm;
    rewrite <- Hm; by destruct (Pos.compare_cont Eq mb ma).
Qed.

Lemma leb_not_ltb (a b : spec_float) :
  Float32.leb a b = true → Float32.ltb b a = false.
Proof.
  unfold Float32.leb, Float32.ltb, SFleb, SFltb.
  rewrite (SFcompare_antisym a b).
  by destruct (SFcompare a b) as [[]|].
Qed.

Lemma not_ltb_leb (a b : spec_float) :
  a ≠ S754_nan → b ≠ S754_nan →
  Float32.ltb b a = false → Float32.leb a b = true.
Proof.
  unfold Float32.leb, Float32.ltb, SFleb, SFltb.
  rewrite (SFcompare_antisym a b). intros Ha Hb.
  assert (Hsome : is_Some (SFcompare a b)).
  { destruct a, b; simpl; try done; eauto. }
  destruct Hsome as [c ->]. by destruct c.
Qed.

End FloatOrder.

Section KosselPiClaims.

Import KosselPi.

(** C7.  [clampMoveRate f] is [std::min (f, 50)]: it is never above 50, it
    is at most 50 unless [f] is a NaN, it is [f] whenever [f <= 50] and it
    is 50 whenever [f] is above 50; [clampHomeRate f] is 10 whatever [f]
    is. *)
Theorem clamp_rates (f : spec_float) :
  MAX_MOVE_RATE = 50%Z ∧
  HOME_RATE = 10%Z ∧
  clampMoveRate f = Float32.std_min f (Float32.of_Z 50) ∧
  Float32.ltb (Float32.of_Z 50) (clampMoveRate f) = false ∧
  (f ≠ S754_nan → Float32.leb (clampMoveRate f) (Float32.of_Z 50) = true) ∧
  (Float32.leb f (Float32.of_Z 50) = true → clampMoveRate f = f) ∧
  (Float32.ltb (Float32.of_Z 50) f = true →
     clampMoveRate f = Float32.of_Z 50) ∧
  (∀ g, clampHomeRate f = clampHomeRate g) ∧
  clampHomeRate f = Float32.of_Z 10.
Proof.
  unfold clampMoveRate, clampHomeRate, defaultMoveRate, Float32.std_min,
    MAX_MOVE_RATE, HOME_RATE.
  split; [done |]. split; [done |]. split; [done |]. split; [| split; [| split]].
  - destruct (Float32.ltb (Float32.of_Z 50) f) eqn:Hlt; [by vm_compute | done].
  - intros Hnan.
    destruct (Float32.ltb (Float32.of_Z 50) f) eqn:Hlt; [by vm_compute |].
    by apply not_ltb_leb.
  - intros Hle. by rewrite (leb_not_ltb _ _ Hle).
  - split; [by intros -> | done].
Qed.

(** Feed rates of 30, 50 and 80 mm/sec: the first two pass, the third is
    cut to 50; homing always runs at 10. *)
Example clamp_rates_examples :
  clampMoveRate (Float32.of_Z 30) = Float32.of_Z 30 ∧
  clampMoveRate (Float32.of_Z 50) = Float32.of_Z 50 ∧
  clampMoveRate (Float32.of_Z 80) = Float32.of_Z 50 ∧
  clampMoveRate (S754_infinity false) = Float32.of_Z 50 ∧
  clampHomeRate (Float32.of_Z 80) = Float32.of_Z 10.
Proof. by vm_compute. Qed.

End KosselPiClaims.

Section DeltaGeometry.

Import KosselPi.
Local Open Scope R_scope.

Lemma bed_level_identity (x y z : R) :
  bed_level Identity3Static (x, y, z) = (x, y, z).
Proof. unfold bed_level, Identity3Static. simpl. f_equal; [f_equal |]; field. Qed.

(** At the origin every carriage sits at [sqrt (L^2 - R^2)]. *)
Lemma carriage_height_origin (r l : Z) (t : Tower) :
  carriage_height r l Identity3Static t (0, 0, 0)
    = sqrt (IZR l ^ 2 - IZR r ^ 2).
Proof.
  unfold carriage_height. rewrite bed_level_identity.
  rewrite Rplus_0_l. f_equal.
  pose proof (sin2_cos2 (tower_angle t)) as Hsc. unfold Rsqr in Hsc.
  set (s := sin (tower_angle t)) in *. set (c := cos (tower_angle t)) in *.
  replace ((0 - IZR r * c) ^ 2) with (IZR r ^ 2 * (c * c)) by ring.
  replace ((0 - IZR r * s) ^ 2) with (IZR r ^ 2 * (s * s)) by ring.
  replace (c * c) with (1 - s * s) by lra. ring.
Qed.

Lemma home_height_bounds :
  191102 < sqrt (IZR L1000 ^ 2 - IZR R1000 ^ 2) < 191103.
Proof.
  unfold L1000, R1000.
  replace (221000 ^ 2 - 111000 ^ 2) with 36520000000 by lra.
  split.
  - rewrite <- (sqrt_square 191102) by lra.
    apply sqrt_lt_1; lra.
  - rewrite <- (sqrt_square 191103) by lra.
    apply sqrt_lt_1; lra.
Qed.

Lemma round_between (x : R) (n : Z) :
  IZR n - / 2 <= x < IZR n + / 2 → round x = n.
Proof.
  intros [Hlo Hhi]. unfold round. symmetry. apply Int_part_spec. lra.
Qed.

(** C6 (with the height that the constants give).  The reference delta
    configuration satisfies the geometry invariants, and under the identity
    bed-level transform each carriage stands at [sqrt (L^2 - R^2)] for the
    effector at (0, 0, 0), which lies between 191102 and 191103
    micrometres and makes 4789 steps. *)
Theorem reference_delta_configuration :
  (R1000 = 111000 ∧ L1000 = 221000 ∧ H1000 = 467330 ∧
   BUILDRAD1000 = 85000 ∧ STEPS_M = 25060)%Z ∧
  (0 < R1000 ∧ 0 < L1000 ∧ 0 < H1000)%Z ∧
  (BUILDRAD1000 <= R1000)%Z ∧
  (L1000 ^ 2 >= (R1000 - BUILDRAD1000) ^ 2)%Z ∧
  (∀ t : Tower,
     let h := carriage_height R1000 L1000 Identity3Static t (0, 0, 0) in
     h = sqrt (IZR L1000 ^ 2 - IZR R1000 ^ 2) ∧
     191102 < h < 191103 ∧
     carriage_steps STEPS_M h = 4789%Z).
Proof.
  split; [done |]. split; [done |]. split; [done |]. split; [done |].
  intros t h. subst h. rewrite carriage_height_origin.
  pose proof home_height_bounds as [Hlo Hhi].
  split; [done |]. split; [done |].
  unfold carriage_steps. apply round_between.
  change (IZR STEPS_M) with 25060.
  lra.
Qed.

(** C6 as first stated: the home carriage height is not 191094
    micrometres, not even to within 8 micrometres. *)
Lemma home_height_is_not_191094 :
  ¬ (Rabs (carriage_height R1000 L1000 Identity3Static TowerA (0, 0, 0)
           - 191094) <= 8).
Proof.
  rewrite carriage_height_origin.
  pose proof home_height_bounds as [Hlo Hhi].
  intros Habs. pose proof (Rle_abs (sqrt (IZR L1000 ^ 2 - IZR R1000 ^ 2) - 191094)). lra.
Qed.

(** The step count, for the height the constants give and for 191094. *)
Example steps_of_both_heights :
  carriage_steps STEPS_M 191102 = 4789%Z ∧
  carriage_steps STEPS_M 191094 = 4789%Z.
Proof.
  unfold carriage_steps.
  change (IZR STEPS_M) with 25060.
  split; apply round_between; lra.
Qed.

End DeltaGeometry.

(* ===================================================================== *)
(** ** Properties of dma-gpio.c *)
(* ===================================================================== *)

Section DmaGpioClaims.

Import DmaGpio DmaGpioProps.
Local Open Scope Z_scope.

Lemma load_insert_eq (mem : gmap Z Z) a v : load (<[a := v]> mem) a = v.
Proof. unfold load. by rewrite lookup_insert_eq. Qed.

Lemma not32_testbit x i :
  0 <= i < 32 → Z.testbit (not32 x) i = negb (Z.testbit x i).
Proof.
  intros Hi. unfold not32, wrap32.
  rewrite Z.mod_pow2_bits_low by lia. apply Z.lnot_spec. lia.
Qed.

Lemma not32_range x : 0 <= not32 x < 2 ^ 32.
Proof. unfold not32, wrap32. apply Z.mod_pos_bound. lia. Qed.

Lemma uint32_testbit_high z i : uint32 z → 32 <= i → Z.testbit z i = false.
Proof.
  intros [Hlo Hhi] Hi.
  destruct (Z.eq_dec z 0) as [-> | Hz]; [apply Z.testbit_0_l |].
  apply Z.bits_above_log2; [lia |].
  apply Z.lt_le_trans with 32; [| lia].
  apply Z.log2_lt_pow2; lia.
Qed.

Lemma uint32_land_l a b : uint32 a → uint32 (Z.land a b).
Proof.
  intros Ha. split; [apply Z.land_nonneg; left; apply Ha |].
  destruct (Z.eq_dec (Z.land a b) 0) as [-> | Hz]; [lia |].
  assert (0 <= Z.land a b) by (apply Z.land_nonneg; left; apply Ha).
  apply Z.log2_lt_pow2; [lia |].
  apply Z.nle_gt. intros Hlog.
  pose proof (Z.bit_log2 (Z.land a b) ltac:(lia)) as Hbit.
  rewrite Z.land_spec, (uint32_testbit_high a) in Hbit by (done || lia).
  done.
Qed.

Lemma uint32_lor a b : uint32 a → uint32 b → uint32 (Z.lor a b).
Proof.
  intros Ha Hb. split; [apply Z.lor_nonneg; split; [apply Ha | apply Hb] |].
  assert (0 <= Z.lor a b) by (apply Z.lor_nonneg; split; [apply Ha | apply Hb]).
  destruct (Z.eq_dec (Z.lor a b) 0) as [-> | Hz]; [lia |].
  apply Z.log2_lt_pow2; [lia |].
  apply Z.nle_gt. intros Hlog.
  pose proof (Z.bit_log2 (Z.lor a b) ltac:(lia)) as Hbit.
  rewrite Z.lor_spec, (uint32_testbit_high a), (uint32_testbit_high b)
    in Hbit by (done || lia).
  done.
Qed.

(** Merging the same value under the same mask twice changes nothing. *)
Lemma merge_idempotent cur nm value mask :
  Z.lor (Z.land (Z.lor (Z.land cur nm) (Z.land value mask)) nm)
        (Z.land value mask)
  = Z.lor (Z.land cur nm) (Z.land value mask).
Proof.
  apply Z.bits_inj'. intros i _.
  rewrite !Z.lor_spec, !Z.land_spec, !Z.lor_spec, !Z.land_spec.
  by destruct (Z.testbit cur i), (Z.testbit nm i), (Z.testbit value i),
    (Z.testbit mask i).
Qed.

(** C9.  After [writeBitmasked(dest, mask, value)] the register holds
    [(cur & ~mask) | (value & mask)], [cur] being what it held before:
    each of its 32 bits is the bit of [value] where [mask] has a one and is
    unchanged where [mask] has a zero; no other word changes; calling it
    again with the same arguments changes nothing; and the result is a
    32-bit word when [cur] and [value] are. *)
Theorem writeBitmasked_merges (mem : gmap Z Z) (dest mask value : Z) :
  let cur := load mem dest in
  let mem' := writeBitmasked mem dest mask value in
  load mem' dest = Z.lor (Z.land cur (not32 mask)) (Z.land value mask) ∧
  (∀ i, 0 <= i < 32 → Z.testbit mask i = false →
        Z.testbit (load mem' dest) i = Z.testbit cur i) ∧
  (∀ i, 0 <= i < 32 → Z.testbit mask i = true →
        Z.testbit (load mem' dest) i = Z.testbit value i) ∧
  (∀ a, a ≠ dest → mem' !! a = mem !! a) ∧
  writeBitmasked mem' dest mask value = mem' ∧
  (uint32 cur → uint32 value → uint32 (load mem' dest)).
Proof.
  intros cur mem'.
  assert (Hload : load mem' dest
                  = Z.lor (Z.land cur (not32 mask)) (Z.land value mask)).
  { unfold mem', writeBitmasked. by rewrite load_insert_eq. }
  split; [done |]. rewrite Hload. split; [| split; [| split; [| split]]].
  - intros i Hi Hm.
    rewrite Z.lor_spec, !Z.land_spec, not32_testbit, Hm by done.
    simpl. by rewrite andb_true_r, andb_false_r, orb_false_r.
  - intros i Hi Hm.
    rewrite Z.lor_spec, !Z.land_spec, not32_testbit, Hm by done.
    simpl. by rewrite andb_true_r, andb_false_r.
  - intros a Ha. unfold mem', writeBitmasked.
    by rewrite !lookup_insert_ne.
  - unfold writeBitmasked at 1. fold cur. rewrite Hload, merge_idempotent.
    rewrite insert_insert_eq. apply insert_id.
    unfold mem', writeBitmasked. fold cur. by rewrite lookup_insert_eq.
  - intros Hc Hv. apply uint32_lor; by apply uint32_land_l.
Qed.

(** The register 0b11001100 written with mask 0b00000110 and value
    0b11110011 becomes 0b11001010: bit 2 is cleared and bit 1 is set. *)
Example writeBitmasked_example :
  load (writeBitmasked {[ 0 := 0xCC ]} 0 0x06 0xF3) 0 = 0xCA.
Proof. reflexivity. Qed.

End DmaGpioClaims.

Section DmaGpioMain.

Import DmaGpio DmaGpioProps.
Local Open Scope Z_scope.

(** The wait loop ends as soon as a read shows ACTIVE clear, given the
    fuel to get there. *)
Lemma wait_inactive_done cs : ∀ n k fuel,
  (∀ j, (k <= j < k + n)%nat → Z.land (cs j) DMA_CS_ACTIVE ≠ 0) →
  Z.land (cs (k + n)%nat) DMA_CS_ACTIVE = 0 →
  (n < fuel)%nat →
  wait_inactive cs k fuel = inr tt.
Proof.
  induction n as [|n IH]; intros k fuel Hact Hidle Hfuel;
    (destruct fuel as [|fuel]; [lia |]); simpl.
  - rewrite Nat.add_0_r in Hidle. by rewrite Hidle.
  - destruct (Z.eqb_spec (Z.land (cs k) DMA_CS_ACTIVE) 0) as [Heq | _].
    + exfalso. apply (Hact k); [lia | done].
    + apply IH; [| | lia].
      * intros j Hj. apply Hact. lia.
      * by replace (S k + n)%nat with (k + S n)%nat by lia.
Qed.

Lemma wait_inactive_outcome cs : ∀ fuel k,
  wait_inactive cs k fuel = inr tt ∨ wait_inactive cs k fuel = inl Waiting.
Proof.
  induction fuel as [|fuel IH]; intros k; simpl; [by right |].
  destruct (_ =? _); [by left | apply IH].
Qed.

(** Where [main] ends, and with what: 1 when /dev/mem cannot be opened or
    a page cannot be mapped, a fault when the enable word is not accessible,
    and else 0 once the channel is seen idle. *)
Lemma main_exit_codes e fuel :
  (open_devmem e < 0 → fst (main e fuel) = Exited 1) ∧
  (0 <= open_devmem e →
   mmap_gpio e = None ∨ mmap_dma e = None ∨ mmap_timer e = None →
   fst (main e fuel) = Exited 1) ∧
  (0 <= open_devmem e →
   is_Some (mmap_gpio e) → is_Some (mmap_dma e) → is_Some (mmap_timer e) →
   (dma_accessible e DMAENABLE = false → fst (main e fuel) = Faulted) ∧
   (dma_accessible e DMAENABLE = true →
    (fst (main e fuel) = Exited 0 ∨ fst (main e fuel) = Waiting) ∧
    (∀ n, (∀ j, (j < n)%nat → Z.land (cs_reads e j) DMA_CS_ACTIVE ≠ 0) →
          Z.land (cs_reads e n) DMA_CS_ACTIVE = 0 →
          (n < fuel)%nat →
          fst (main e fuel) = Exited 0))).
Proof.
  unfold main. split; [| split].
  - intros Hneg. by rewrite (proj2 (Z.ltb_lt _ _) Hneg).
  - intros Hpos Hmap. rewrite (proj2 (Z.ltb_ge _ _) Hpos).
    destruct (mmap_gpio e); [| done].
    destruct (mmap_dma e); [| done].
    destruct (mmap_timer e); [| done].
    by destruct Hmap as [? | [? | ?]].
  - intros Hpos [g ->] [d ->] [t ->]. rewrite (proj2 (Z.ltb_ge _ _) Hpos).
    simpl. split; intros ->; simpl; [done |]. split.
    + by destruct (wait_inactive_outcome (cs_reads e) fuel 0%nat) as [-> | ->];
        [left | right].
    + intros n Hact Hidle Hfuel.
      rewrite (wait_inactive_done (cs_reads e) n 0 fuel); [done | | done ..].
      intros j Hj. apply Hact. lia.
Qed.

(** What the two pagemap lookups answer has no bearing on how [main]
    ends. *)
Lemma main_ignores_pagemap e fuel sp cp :
  fst (main (with_pages e sp cp) fuel) = fst (main e fuel).
Proof.
  unfold main, with_pages, dma_accessible. simpl.
  destruct (open_devmem e <? 0); [done |].
  destruct (mmap_gpio e); [| done].
  destruct (mmap_dma e); [| done].
  destruct (mmap_timer e); [| done]. simpl.
  destruct (negb _); [done |]. simpl.
  by destruct (wait_inactive _ _ _).
Qed.

(** C8 (the run that shows the defect).  /proc/self/pagemap cannot be
    opened or read for either page, everything else works: [main] notices
    nothing, starts the channel on the address made of the garbage in
    [pageInfo], and returns 0 once the channel is idle. *)
Theorem pagemap_failure_exits_with_0 :
  pagemap_failed (src_page env_pagemap_fails) ∧
  pagemap_failed (cb_page env_pagemap_fails) ∧
  env_pagemap_fails
    = with_pages env_ok (src_page env_pagemap_fails) (cb_page env_pagemap_fails) ∧
  fst (main env_ok 3) = Exited 0 ∧
  fst (main env_pagemap_fails 3) = Exited 0 ∧
  load (dma (snd (main env_pagemap_fails 3))) (DMACH3 + hdr_CONBLK_AD)
    = wrap32 (0xdeadbeef * PAGE_SIZE).
Proof.
  split; [by left |]. split; [by left |]. by vm_compute.
Qed.

(** A channel that stops with its ERROR flag up ends the run with 0 as
    well. *)
Example dma_error_exits_with_0 :
  fst (main env_dma_error 1) = Exited 0.
Proof. reflexivity. Qed.

(** The exits of [main] that are there: 1 when /dev/mem cannot be opened
    and when a peripheral page cannot be mapped, 0 at the end of a run. *)
Example main_exits :
  fst (main (mkEnv (-1) None None None ∅ ∅ (page_ok 0 0) (page_ok 0 0)
                   (λ _, 0) nothing_beyond) 1)
    = Exited 1 ∧
  fst (main (mkEnv 3 (Some 0xb6f00000) None (Some 0xb6efe000) ∅ ∅
                   (page_ok 0 0) (page_ok 0 0) (λ _, 0) nothing_beyond) 1)
    = Exited 1 ∧
  fst (main env_ok 3) = Exited 0 ∧
  fst (main env_ok 2) = Waiting.
Proof. by vm_compute. Qed.




End DmaGpioMain.

(* ===================================================================== *)
(** ** Further properties of iopin.cpp *)
(* ===================================================================== *)

Section IoPinRegistry.

Import IoDrv IoDrvProps IoDrvInvariants.

Implicit Types (p q : IoPin) (h : Hardware) (lev : IoLevel) (w : World).

(** A list without repetition maps to one without repetition exactly when
    no two of its members map to the same value. *)
Lemma NoDup_omap_iff {A B : Type} (f : A → option B) (l : list A) :
  NoDup l →
  NoDup (omap f l) ↔
  ∀ a b y, a ∈ l → b ∈ l → f a = Some y → f b = Some y → a = b.
Proof.
  induction l as [|x l IH]; intros Hnd.
  { split; [| constructor]. intros _ a b y Ha. by destruct (not_elem_of_nil a). }
  apply NoDup_cons in Hnd as [Hx Hnd]. specialize (IH Hnd). simpl.
  destruct (f x) as [y0|] eqn:Hfx.
  - rewrite NoDup_cons, IH. split.
    + intros [Hfresh Hinj] a b y Ha Hb Hfa Hfb.
      apply elem_of_cons in Ha as [-> | Ha], Hb as [-> | Hb]; [done | | | by eauto].
      * exfalso. apply Hfresh. apply list_elem_of_omap. exists b. split; congruence.
      * exfalso. apply Hfresh. apply list_elem_of_omap. exists a. split; congruence.
    + intros Hinj. split.
      * intros (a & Ha & Hfa)%list_elem_of_omap.
        apply Hx. rewrite (Hinj x a y0); [done | by left | by right | done ..].
      * intros a b y Ha Hb. apply Hinj; by right.
  - rewrite IH. split.
    + intros Hinj a b y Ha Hb Hfa Hfb.
      apply elem_of_cons in Ha as [-> | Ha]; [congruence |].
      apply elem_of_cons in Hb as [-> | Hb]; [congruence |]. by eauto.
    + intros Hinj a b y Ha Hb. apply Hinj; by right.
Qed.

(** No line is shared exactly when two living pins on one line are one
    pin. *)
Lemma lines_unshared_iff w :
  lines_unshared w ↔
  ∀ a b id, a ∈ livingPins w → b ∈ livingPins w →
            line_at (objs w) a = Some id → line_at (objs w) b = Some id →
            a = b.
Proof.
  unfold lines_unshared, living_lines.
  rewrite NoDup_omap_iff by apply NoDup_elements.
  split; intros H a b id Ha Hb; apply H; by apply elem_of_elements.
Qed.

Lemma line_unowned_not_in_lines w id :
  line_unowned w id →
  id ∉ omap (line_at (objs w)) (livingPins_order (livingPins w)).
Proof.
  intros Hun (a & Ha & Hline)%list_elem_of_omap.
  apply (Hun a); [by apply livingPins_order_elem_of | done].
Qed.

Lemma setToDefault_calls p h :
  calls (setToDefault p h) = calls h ∨
  ∃ c, calls (setToDefault p h) = calls h ++ [c].
Proof.
  unfold setToDefault, makeDigitalOutput, makeDigitalInput.
  destruct (_pin p) as [|id]; simpl; [by left |].
  destruct (_defaultState p); simpl; eauto.
Qed.

Lemma foldl_setToDefault_calls o l : ∀ h,
  ∃ cs, calls (foldl (setToDefault_at o) h l) = calls h ++ cs ∧
        length cs ≤ length l.
Proof.
  induction l as [|b l IH]; intros h; simpl.
  { exists []. by rewrite app_nil_r. }
  destruct (IH (setToDefault_at o h b)) as (cs & Hcs & Hlen).
  unfold setToDefault_at in *. destruct (o !! b) as [p|].
  - destruct (setToDefault_calls p h) as [Heq | [c Heq]]; rewrite Hcs, Heq.
    + exists cs. split; [done | lia].
    + exists (c :: cs). rewrite <- app_assoc. split; [done | simpl; lia].
  - exists cs. split; [done | lia].
Qed.

Lemma deactivateAll_unowned w id :
  line_unowned w id →
  lines (hw (deactivateAll w)) !! id = lines (hw w) !! id.
Proof.
  intros Hun. simpl.
  by apply foldl_setToDefault_other, line_unowned_not_in_lines.
Qed.

(** X1.  [deactivateAll] changes nothing but the lines of living pins.  The
    objects and the registry stay as they are, a line that no living pin
    references keeps its state, and the calls made on lines are the earlier
    ones followed by at most one call per registered pin. *)
Theorem deactivateAll_frame w :
  objs (deactivateAll w) = objs w ∧
  livingPins (deactivateAll w) = livingPins w ∧
  (∀ id, line_unowned w id →
         lines (hw (deactivateAll w)) !! id = lines (hw w) !! id) ∧
  ∃ cs, calls (hw (deactivateAll w)) = calls (hw w) ++ cs ∧
        length cs ≤ size (livingPins w).
Proof.
  split; [done |]. split; [done |]. split.
  - apply deactivateAll_unowned.
  - simpl.
    destruct (foldl_setToDefault_calls (objs w)
                (livingPins_order (livingPins w)) (hw w)) as (cs & Hcs & Hlen).
    exists cs. split; [done |].
    unfold livingPins_order in Hlen.
    by rewrite merge_sort_Permutation in Hlen.
Qed.

(** A pin that is in its default state is left there: [setToDefault]
    changes the state of no line. *)
Lemma setToDefault_settled p h :
  in_default_state p h → ∀ id, line_of (setToDefault p h) id = line_of h id.
Proof.
  intros Hd id. unfold setToDefault.
  destruct (_pin p) as [|idp] eqn:Hp; simpl; [done |].
  unfold in_default_state, is_output_at, is_input in Hd. rewrite Hp in Hd.
  unfold makeDigitalOutput, makeDigitalInput. rewrite Hp.
  destruct (_defaultState p); [done | | |]; simpl; unfold line_of at 1; simpl;
    (destruct (decide (idp = id)) as [<- | Hne];
     [rewrite lookup_insert_eq | by rewrite lookup_insert_ne]); simpl;
    [by rewrite Hd | by rewrite Hd |].
  destruct (line_of h idp) as [m l]. simpl in *. by subst.
Qed.

(** X2.  [setToDefault] twice is [setToDefault] once, as far as the lines
    go. *)
Theorem setToDefault_idempotent p h id :
  line_of (setToDefault p (setToDefault p h)) id
    = line_of (setToDefault p h) id.
Proof.
  destruct (isNull p) eqn:Hnull.
  - unfold setToDefault. unfold isNull in Hnull. by rewrite Hnull.
  - by apply setToDefault_settled, setToDefault_in_default_state.
Qed.

(** X3.  A pin destroyed after [deactivateAll] has run (a pin with static
    storage, say) changes the state of no line, when no two living pins share
    a line. *)
Theorem destroy_after_deactivateAll w a p :
  objs w !! a = Some p →
  a ∈ livingPins w →
  lines_unshared w →
  ∀ id, line_of (hw (destroy a (deactivateAll w))) id
          = line_of (hw (deactivateAll w)) id.
Proof.
  intros Hobj Hlive Hun id.
  assert (Hhw : hw (destroy a (deactivateAll w))
                = setToDefault p (hw (deactivateAll w))).
  { simpl. unfold setToDefault_at at 1. by rewrite Hobj. }
  rewrite Hhw. destruct (isNull p) eqn:Hnull.
  { unfold setToDefault at 1. unfold isNull in Hnull. by rewrite Hnull. }
  apply setToDefault_settled. simpl.
  apply (foldl_setToDefault_in_default_state _ _ _ a); [| | done ..].
  - unfold lines_unshared, living_lines in Hun.
    unfold livingPins_order. by rewrite merge_sort_Permutation.
  - by apply livingPins_order_elem_of.
Qed.

Lemma destroy_after_deactivateAll_witness :
  objs world0 !! 48%N = Some pinC ∧
  48%N ∈ livingPins world0 ∧
  lines_unshared world0 ∧
  line_of (hw (destroy 48 (deactivateAll world0))) 9
    = line_of (hw (deactivateAll world0)) 9.
Proof.
  assert (H1 : objs world0 !! 48%N = Some pinC) by reflexivity.
  assert (H2 : 48%N ∈ livingPins world0).
  { apply (bool_decide_unpack _). vm_compute. exact I. }
  assert (H3 : lines_unshared world0).
  { apply (bool_decide_unpack _). vm_compute. exact I. }
  exact (conj H1 (conj H2 (conj H3
           (destroy_after_deactivateAll world0 48%N pinC H1 H2 H3 9%N)))).
Defined.

End IoPinRegistry.

Section IoPinOwnership.

Import IoDrv IoDrvProps IoDrvInvariants.

Implicit Types (p q : IoPin) (h : Hardware) (lev : IoLevel) (w : World).

(** The line behind each pointer after a move-assignment between two
    objects. *)
Lemma move_assign_line_at w this other src dst :
  objs w !! other = Some src →
  objs w !! this = Some dst →
  this ≠ other →
  line_at (objs (move_assign this other w)) this = line_at (objs w) other ∧
  line_at (objs (move_assign this other w)) other = None ∧
  ∀ c, c ≠ this → c ≠ other →
       line_at (objs (move_assign this other w)) c = line_at (objs w) c.
Proof.
  intros Hsrc Hdst Hne.
  destruct (move_assign_distinct w this other src dst Hsrc Hdst Hne)
    as (Ht & Ho & Hc & _ & _).
  unfold line_at. rewrite Ht, Ho, Hsrc. simpl.
  split; [done |]. split; [done |].
  intros c Hc1 Hc2. by rewrite Hc.
Qed.

Lemma isNull_line_at (o : gmap N IoPin) a p :
  o !! a = Some p → isNull p = true → line_at o a = None.
Proof.
  intros Ho Hnull. unfold line_at, isNull in *. rewrite Ho.
  by destruct (_pin p).
Qed.

(** X4.  A move-assignment between two objects keeps the lines unshared,
    when the source is registered or null. *)
Theorem move_assign_keeps_lines_unshared w this other src dst :
  objs w !! other = Some src →
  objs w !! this = Some dst →
  this ≠ other →
  other ∈ livingPins w ∨ isNull src = true →
  lines_unshared w →
  lines_unshared (move_assign this other w).
Proof.
  intros Hsrc Hdst Hne Hreg Hun.
  destruct (move_assign_line_at w this other src dst Hsrc Hdst Hne)
    as (Ht & Ho & Hc).
  assert (Hlive : ∀ id, line_at (objs w) other = Some id → other ∈ livingPins w).
  { intros id Hid. destruct Hreg as [? | Hnull]; [done |].
    by rewrite (isNull_line_at _ _ _ Hsrc Hnull) in Hid. }
  rewrite lines_unshared_iff in Hun. apply lines_unshared_iff.
  intros a b id Ha Hb Hla Hlb. simpl in Ha, Hb.
  apply elem_of_difference in Ha as [Ha Hao], Hb as [Hb Hbo].
  rewrite elem_of_singleton in Hao, Hbo.
  apply elem_of_union in Ha as [Ha | ->%elem_of_singleton],
    Hb as [Hb | ->%elem_of_singleton]; try done.
  - destruct (decide (a = this)) as [-> | Hat], (decide (b = this)) as [-> | Hbt];
      try done.
    + rewrite Ht in Hla. rewrite Hc in Hlb by done.
      destruct Hbo. apply (Hun b other id); eauto.
    + rewrite Ht in Hlb. rewrite Hc in Hla by done.
      destruct Hao. apply (Hun a other id); eauto.
    + rewrite Hc in Hla, Hlb by done. by apply (Hun a b id).
  - destruct (decide (a = this)) as [-> | Hat]; [done |].
    rewrite Ht in Hlb. rewrite Hc in Hla by done.
    destruct Hao. apply (Hun a other id); eauto.
  - destruct (decide (b = this)) as [-> | Hbt]; [done |].
    rewrite Ht in Hla. rewrite Hc in Hlb by done.
    destruct Hbo. apply (Hun b other id); eauto.
Qed.

Lemma move_assign_keeps_lines_unshared_witness :
  objs world2 !! 16%N = Some pinA ∧
  objs world2 !! 32%N = Some pinB ∧
  32%N ≠ 16%N ∧
  16%N ∈ livingPins world2 ∧
  lines_unshared world2 ∧
  lines_unshared (move_assign 32 16 world2).
Proof.
  assert (H1 : objs world2 !! 16%N = Some pinA) by reflexivity.
  assert (H2 : objs world2 !! 32%N = Some pinB) by reflexivity.
  assert (H3 : 32%N ≠ 16%N) by discriminate.
  assert (H4 : 16%N ∈ livingPins world2).
  { apply (bool_decide_unpack _). vm_compute. exact I. }
  assert (H5 : lines_unshared world2).
  { apply (bool_decide_unpack _). vm_compute. exact I. }
  exact (conj H1 (conj H2 (conj H3 (conj H4 (conj H5
           (move_assign_keeps_lines_unshared world2 32%N 16%N pinA pinB
              H1 H2 H3 (or_introl H4) H5)))))).
Defined.

(** X5.  A move-assignment onto a pin that owns a line abandons that line.
    The move itself touches no hardware, afterwards no living pin references
    the line, and a later [deactivateAll] leaves it in the state it had: it
    is never driven to the default of the pin that owned it. *)
Theorem move_assign_abandons_the_line w this other src dst id :
  objs w !! other = Some src →
  objs w !! this = Some dst →
  this ≠ other →
  _pin dst = PrimLine id →
  this ∈ livingPins w →
  other ∈ livingPins w ∨ isNull src = true →
  lines_unshared w →
  hw (move_assign this other w) = hw w ∧
  line_unowned (move_assign this other w) id ∧
  lines (hw (deactivateAll (move_assign this other w))) !! id
    = lines (hw w) !! id.
Proof.
  intros Hsrc Hdst Hne Hline Hthis Hreg Hun.
  destruct (move_assign_line_at w this other src dst Hsrc Hdst Hne)
    as (Ht & Ho & Hc).
  assert (Hown : line_at (objs w) this = Some id).
  { unfold line_at. by rewrite Hdst, Hline. }
  rewrite lines_unshared_iff in Hun.
  assert (Hunowned : line_unowned (move_assign this other w) id).
  { intros a Ha Hla. simpl in Ha.
    apply elem_of_difference in Ha as [Ha Hao].
    rewrite elem_of_singleton in Hao.
    destruct (decide (a = this)) as [-> | Hat].
    - rewrite Ht in Hla. apply Hne. apply (Hun this other id); try done.
      destruct Hreg as [? | Hnull]; [done |].
      by rewrite (isNull_line_at _ _ _ Hsrc Hnull) in Hla.
    - rewrite Hc in Hla by done. apply Hat. apply (Hun a this id); try done.
      apply elem_of_union in Ha as [? | ?%elem_of_singleton]; done. }
  split; [done |]. split; [done |].
  by rewrite deactivateAll_unowned.
Qed.

Lemma move_assign_abandons_the_line_witness :
  objs world2 !! 16%N = Some pinA ∧
  objs world2 !! 32%N = Some pinB ∧
  _pin pinB = PrimLine 7 ∧
  32%N ∈ livingPins world2 ∧
  16%N ∈ livingPins world2 ∧
  lines_unshared world2 ∧
  lines (hw (deactivateAll (move_assign 32 16 world2))) !! 7%N
    = lines (hw world2) !! 7%N.
Proof.
  assert (H1 : objs world2 !! 16%N = Some pinA) by reflexivity.
  assert (H2 : objs world2 !! 32%N = Some pinB) by reflexivity.
  assert (H3 : 32%N ≠ 16%N) by discriminate.
  assert (H4 : 32%N ∈ livingPins world2).
  { apply (bool_decide_unpack _). vm_compute. exact I. }
  assert (H5 : 16%N ∈ livingPins world2).
  { apply (bool_decide_unpack _). vm_compute. exact I. }
  assert (H6 : lines_unshared world2).
  { apply (bool_decide_unpack _). vm_compute. exact I. }
  exact (conj H1 (conj H2 (conj eq_refl (conj H4 (conj H5 (conj H6
           (proj2 (proj2 (move_assign_abandons_the_line world2 32%N 16%N
                            pinA pinB 7%N H1 H2 H3 eq_refl H4
                            (or_introl H5) H6))))))))).
Defined.

(** X6.  The destructor takes exactly its own pin out of the world.  The
    pointer leaves the registry and its object is gone, every other pointer
    and object stays, and a registry without dangling pointers and without
    shared lines remains one. *)
Theorem destroy_keeps_invariants w a :
  registry_valid w →
  lines_unshared w →
  registry_valid (destroy a w) ∧
  lines_unshared (destroy a w) ∧
  objs (destroy a w) !! a = None ∧
  (∀ b, b ∈ livingPins (destroy a w) ↔ b ∈ livingPins w ∧ b ≠ a) ∧
  (∀ b, b ≠ a → objs (destroy a w) !! b = objs w !! b).
Proof.
  intros Hval Hun.
  assert (Hmem : ∀ b, b ∈ livingPins (destroy a w) ↔ b ∈ livingPins w ∧ b ≠ a).
  { intros b. simpl. rewrite elem_of_difference, elem_of_singleton. done. }
  assert (Hobj : ∀ b, b ≠ a → objs (destroy a w) !! b = objs w !! b).
  { intros b Hb. simpl. by rewrite lookup_delete_ne. }
  split; [| split; [| split; [| done]]].
  - intros b [Hb Hne]%Hmem. rewrite Hobj by done. by apply Hval.
  - rewrite lines_unshared_iff in Hun. apply lines_unshared_iff.
    intros b c id [Hb Hbne]%Hmem [Hc Hcne]%Hmem.
    unfold line_at. rewrite !Hobj by done. by apply Hun.
  - simpl. apply lookup_delete_eq.
Qed.

Lemma destroy_keeps_invariants_witness :
  registry_valid world0 ∧
  lines_unshared world0 ∧
  registry_valid (destroy 16 world0) ∧
  lines_unshared (destroy 16 world0).
Proof.
  assert (H1 : registry_valid world0).
  { change (set_Forall (λ a, is_Some (objs world0 !! a)) (livingPins world0)).
    apply (bool_decide_unpack _). vm_compute. exact I. }
  assert (H2 : lines_unshared world0).
  { apply (bool_decide_unpack _). vm_compute. exact I. }
  destruct (destroy_keeps_invariants world0 16%N H1 H2) as (H3 & H4 & _).
  exact (conj H1 (conj H2 (conj H3 H4))).
Defined.

(** X7.  Moves and [deactivateAll] leave no dangling pointer in the
    registry.  A move-assignment onto a living object, a move-construction
    and [deactivateAll] each turn a registry whose pointers all point to
    living objects into one of the same kind. *)
Theorem registry_stays_valid w :
  registry_valid w →
  registry_valid (deactivateAll w) ∧
  (∀ this other, is_Some (objs w !! this) →
     registry_valid (move_assign this other w)) ∧
  (∀ this other ir0 iw0 d0,
     registry_valid (move_construct this other ir0 iw0 d0 w)).
Proof.
  intros Hval.
  assert (Hmove : ∀ w' this other,
            registry_valid w' → is_Some (objs w' !! this) →
            registry_valid (move_assign this other w')).
  { intros w' this other Hval' Hthis a Ha. simpl in Ha.
    apply elem_of_difference in Ha as [Ha _].
    unfold move_assign, store. simpl.
    rewrite !lookup_alter_is_Some.
    apply elem_of_union in Ha as [Ha | ->%elem_of_singleton]; [by apply Hval' | done]. }
  split; [done |]. split; [by auto |].
  intros this other ir0 iw0 d0. unfold move_construct. apply Hmove.
  - intros a Ha. simpl in *.
    destruct (decide (a = this)) as [-> | Hne].
    + rewrite lookup_insert_eq. eauto.
    + rewrite lookup_insert_ne by done. by apply Hval.
  - simpl. rewrite lookup_insert_eq. eauto.
Qed.

Lemma registry_stays_valid_witness :
  registry_valid world0 ∧
  registry_valid (deactivateAll world0) ∧
  registry_valid (move_assign 32 16 world0) ∧
  registry_valid (move_construct 80 16 false false IO_DEFAULT_NONE world0).
Proof.
  assert (H1 : registry_valid world0).
  { change (set_Forall (λ a, is_Some (objs world0 !! a)) (livingPins world0)).
    apply (bool_decide_unpack _). vm_compute. exact I. }
  destruct (registry_stays_valid world0 H1) as (H2 & H3 & H4).
  exact (conj H1 (conj H2 (conj (H3 32%N 16%N (ex_intro _ pinB eq_refl))
           (H4 80%N 16%N false false IO_DEFAULT_NONE)))).
Defined.

End IoPinOwnership.

Section IoPinRoundTrip.

Import IoDrv IoDrvProps.

Implicit Types (p q : IoPin) (h : Hardware) (lev : IoLevel).

(** X8.  [translateWriteToPrimitive] is its own inverse, so no two levels
    are written as the same one. *)
Theorem translateWriteToPrimitive_involutive p lev lev' :
  translateWriteToPrimitive p (translateWriteToPrimitive p lev) = lev ∧
  (translateWriteToPrimitive p lev = translateWriteToPrimitive p lev' ↔
   lev = lev').
Proof.
  unfold translateWriteToPrimitive.
  destruct (_invertWrites p), lev, lev'; by repeat split.
Qed.

(** X9.  What is written is read back, negated when exactly one of the two
    inversion flags is set.  This holds after [digitalWrite] and after
    [makeDigitalOutput], which also leaves the line an output. *)
Theorem write_then_read p lev h :
  isNull p = false →
  let back := if xorb (_invertReads p) (_invertWrites p)
              then IoLevel_not lev else lev in
  digitalRead p (digitalWrite p lev h) = back ∧
  digitalRead p (makeDigitalOutput p lev h) = back ∧
  is_output_at p lev (makeDigitalOutput p lev h).
Proof.
  intros Hnn back. subst back.
  split; [| split; [| by apply makeDigitalOutput_is_output]];
    destruct (isNull_false_line p Hnn) as [id Hid];
    unfold digitalRead, digitalWrite, makeDigitalOutput,
      translateWriteToPrimitive; rewrite Hid; simpl;
    unfold line_of; simpl; rewrite lookup_insert_eq; simpl;
    by destruct (_invertReads p), (_invertWrites p), lev.
Qed.

Lemma write_then_read_witness :
  isNull pinA = false ∧
  digitalRead pinA (digitalWrite pinA IoHigh hw0) = IoLow.
Proof.
  exact (conj eq_refl (proj1 (write_then_read pinA IoHigh hw0 eq_refl))).
Defined.

End IoPinRoundTrip.

Section IoPinExitPass.

Import IoDrv IoDrvProps IoDrvInvariants.

Implicit Types (p q : IoPin) (h : Hardware) (lev : IoLevel) (w : World).

(** What [setToDefault] does to a line depends on that line alone. *)
Lemma setToDefault_line_local p h1 h2 id :
  lines h1 !! id = lines h2 !! id →
  lines (setToDefault p h1) !! id = lines (setToDefault p h2) !! id.
Proof.
  intros Heq. unfold setToDefault, makeDigitalOutput, makeDigitalInput.
  destruct (_pin p) as [|idp]; simpl; [done |].
  destruct (_defaultState p); simpl; [done | | |];
    (destruct (decide (idp = id)) as [-> | Hne];
     [rewrite !lookup_insert_eq | by rewrite !lookup_insert_ne]);
    [done | done |].
  unfold line_of. by rewrite Heq.
Qed.

Lemma setToDefault_at_line_local o h1 h2 a id :
  lines h1 !! id = lines h2 !! id →
  lines (setToDefault_at o h1 a) !! id = lines (setToDefault_at o h2 a) !! id.
Proof.
  intros Heq. unfold setToDefault_at. destruct (o !! a); [| done].
  by apply setToDefault_line_local.
Qed.

(** On the line of a pin met on the way, one pass does what the
    [setToDefault] of that pin alone does, provided no other pin of the pass
    shares the line. *)
Lemma foldl_setToDefault_owner o l : ∀ h a id,
  NoDup (omap (line_at o) l) →
  a ∈ l → line_at o a = Some id →
  lines (foldl (setToDefault_at o) h l) !! id
    = lines (setToDefault_at o h a) !! id.
Proof.
  induction l as [|x l IH]; intros h a id Hnd Ha Hline.
  { by destruct (not_elem_of_nil a). }
  simpl. destruct (decide (a = x)) as [<- | Hax].
  - simpl in Hnd. rewrite Hline in Hnd. apply NoDup_cons in Hnd as [Hfresh _].
    by apply foldl_setToDefault_other.
  - apply elem_of_cons in Ha as [? | Ha]; [done |].
    assert (Hin : id ∈ omap (line_at o) l).
    { apply list_elem_of_omap. eauto. }
    assert (Hx : line_at o x ≠ Some id).
    { intros Hx. simpl in Hnd. rewrite Hx in Hnd.
      by apply NoDup_cons in Hnd as [? _]. }
    rewrite (IH _ a id); [| | done ..].
    + apply setToDefault_at_line_local. by apply setToDefault_at_other.
    + simpl in Hnd. destruct (line_at o x); [by apply NoDup_cons in Hnd as [_ ?] | done].
Qed.

(** X10.  When no two living pins share a line, [deactivateAll] acts line by
    line: the line of a living pin ends as that pin's [setToDefault] alone
    would leave it, and so the lines it leaves do not depend on the order in
    which the registry is walked. *)
Theorem deactivateAll_line_by_line w :
  lines_unshared w →
  (∀ a id, a ∈ livingPins w → line_at (objs w) a = Some id →
     lines (hw (deactivateAll w)) !! id
       = lines (setToDefault_at (objs w) (hw w) a) !! id) ∧
  (∀ l, l ≡ₚ livingPins_order (livingPins w) →
     lines (foldl (setToDefault_at (objs w)) (hw w) l)
       = lines (hw (deactivateAll w))).
Proof.
  intros Hun.
  assert (Hpass : ∀ l, l ≡ₚ elements (livingPins w) →
            ∀ id,
              ((id ∉ omap (line_at (objs w)) l) ∧
               lines (foldl (setToDefault_at (objs w)) (hw w) l) !! id
                 = lines (hw w) !! id) ∨
              (∃ a, a ∈ livingPins w ∧ line_at (objs w) a = Some id ∧
                    lines (foldl (setToDefault_at (objs w)) (hw w) l) !! id
                      = lines (setToDefault_at (objs w) (hw w) a) !! id)).
  { intros l Hl id.
    destruct (decide (id ∈ omap (line_at (objs w)) l)) as [Hin | Hout].
    - right. apply list_elem_of_omap in Hin as (a & Ha & Hline).
      exists a. split; [| split; [done |]].
      + apply elem_of_elements. by rewrite <- Hl.
      + apply foldl_setToDefault_owner; [| done ..].
        unfold lines_unshared, living_lines in Hun. by rewrite Hl.
    - left. split; [done |]. by apply foldl_setToDefault_other. }
  assert (Hord : livingPins_order (livingPins w) ≡ₚ elements (livingPins w)).
  { unfold livingPins_order. apply merge_sort_Permutation. }
  rewrite lines_unshared_iff in Hun.
  split.
  - intros a id Ha Hline. simpl.
    destruct (Hpass _ Hord id) as [[Hout _] | (b & Hb & Hlb & ->)].
    + destruct Hout. apply list_elem_of_omap. exists a.
      split; [by apply livingPins_order_elem_of | done].
    + by rewrite (Hun a b id).
  - intros l Hl. apply map_eq. intros id. simpl.
    assert (Hl' : l ≡ₚ elements (livingPins w)) by (by rewrite Hl).
    destruct (Hpass _ Hl' id) as [[Hout ->] | (a & Ha & Hla & ->)],
      (Hpass _ Hord id) as [[Hout' ->] | (b & Hb & Hlb & ->)]; [done | | |].
    + destruct Hout. apply list_elem_of_omap. exists b.
      split; [| done]. rewrite Hl'. by apply elem_of_elements.
    + destruct Hout'. apply list_elem_of_omap. exists a.
      split; [by apply livingPins_order_elem_of | done].
    + by rewrite (Hun a b id).
Qed.

Lemma deactivateAll_line_by_line_witness :
  lines_unshared world0 ∧
  lines (foldl (setToDefault_at (objs world0)) (hw world0)
               (livingPins_order (livingPins world0)))
    = lines (hw (deactivateAll world0)).
Proof.
  assert (H : lines_unshared world0).
  { apply (bool_decide_unpack _). vm_compute. exact I. }
  assert (Hp : livingPins_order (livingPins world0)
               ≡ₚ livingPins_order (livingPins world0)) by reflexivity.
  exact (conj H (proj2 (deactivateAll_line_by_line world0 H) _ Hp)).
Defined.

(** X11.  [setDefaultState] decides what [setToDefault], and with it the
    destructor and [deactivateAll], will do, and nothing else.  The last
    state set wins, a pin that is not null is taken to it by [setToDefault],
    and the primitive pin, the inversions, writes and reads are as
    before. *)
Theorem setDefaultState_then_setToDefault p s h :
  (∀ s', setDefaultState s (setDefaultState s' p) = setDefaultState s p) ∧
  (isNull p = false →
   in_default_state (setDefaultState s p)
                    (setToDefault (setDefaultState s p) h)) ∧
  (s = IO_DEFAULT_NONE → setToDefault (setDefaultState s p) h = h) ∧
  isNull (setDefaultState s p) = isNull p ∧
  (∀ lev, translateWriteToPrimitive (setDefaultState s p) lev
            = translateWriteToPrimitive p lev) ∧
  (∀ lev, digitalWrite (setDefaultState s p) lev h = digitalWrite p lev h) ∧
  digitalRead (setDefaultState s p) h = digitalRead p h.
Proof.
  split; [done |]. split; [| split; [| by repeat split]].
  - intros Hnn. by apply setToDefault_in_default_state.
  - intros ->. unfold setToDefault. simpl. by destruct (negb _).
Qed.

End IoPinExitPass.

(* ===================================================================== *)
(** ** Further properties of kosselpi.h *)
(* ===================================================================== *)

Section KosselPiRates.

Import KosselPi.

Lemma SFcompare_refl (a : spec_float) :
  a ≠ S754_nan → SFcompare a a = Some Eq.
Proof.
  destruct a as [s | s | | s m e]; try done; intros _; simpl.
  - by destruct s.
  - destruct s; rewrite Z.compare_refl, Pos.compare_cont_refl; done.
Qed.

(** X12.  [clampMoveRate] only ever lowers a rate, and only to 50.  It
    returns its argument or 50, clamping twice is clamping once, the result
    is never above the argument, and a rate that is negative, zero or minus
    infinity comes back unchanged: there is no lower bound. *)
Theorem clampMoveRate_only_lowers (f : spec_float) :
  (clampMoveRate f = f ∨ clampMoveRate f = defaultMoveRate) ∧
  clampMoveRate (clampMoveRate f) = clampMoveRate f ∧
  (f ≠ S754_nan → Float32.leb (clampMoveRate f) f = true) ∧
  (∀ m e, f = S754_finite true m e → clampMoveRate f = f) ∧
  (∀ s, f = S754_zero s → clampMoveRate f = f) ∧
  (f = S754_infinity true → clampMoveRate f = f) ∧
  (f = S754_nan → clampMoveRate f = f).
Proof.
  unfold clampMoveRate, Float32.std_min.
  split; [| split; [| split]].
  - destruct (Float32.ltb defaultMoveRate f); auto.
  - destruct (Float32.ltb defaultMoveRate f) eqn:Hlt; [by vm_compute |].
    by rewrite Hlt.
  - intros Hnan. destruct (Float32.ltb defaultMoveRate f) eqn:Hlt.
    + unfold Float32.ltb, Float32.leb, SFltb, SFleb in *.
      by destruct (SFcompare defaultMoveRate f) as [[]|].
    + unfold Float32.leb, SFleb. by rewrite SFcompare_refl.
  - repeat split.
    + by intros m e ->.
    + by intros s ->.
    + by intros ->.
    + by intros ->.
Qed.

End KosselPiRates.

(* ===================================================================== *)
(** ** Further properties of dma-gpio.c *)
(* ===================================================================== *)

Section DmaGpioPages.

Import DmaGpio DmaGpioProps.
Local Open Scope Z_scope.

Lemma wrap32_wrap64_mul_page (x : Z) :
  wrap32 (wrap64 (x * PAGE_SIZE)) = (x mod 2 ^ 20) * PAGE_SIZE.
Proof.
  unfold wrap32, wrap64, PAGE_SIZE.
  rewrite Z.mod_mod_divide by (by exists (2 ^ 32)).
  replace (2 ^ 32) with (2 ^ 20 * 4096) by reflexivity.
  by rewrite Z.mul_mod_distr_r by lia.
Qed.

Lemma makeVirtPhysPage_range (a : PageAnswer) :
  0 <= snd (makeVirtPhysPage a) < 2 ^ 32 ∧
  snd (makeVirtPhysPage a) mod PAGE_SIZE = 0.
Proof.
  unfold makeVirtPhysPage. simpl. rewrite wrap32_wrap64_mul_page. split.
  - match goal with |- _ <= ?x mod _ * _ < _ =>
      pose proof (Z.mod_pos_bound x (2 ^ 20) ltac:(lia)) end.
    unfold PAGE_SIZE. lia.
  - apply Z_mod_mult.
Qed.

(** X13.  The physical address [makeVirtPhysPage] hands back is a page
    address that fits 32 bits, made of the low 20 bits of [pageInfo] alone:
    the flag bits of the pagemap entry never reach it, and neither do frame
    numbers beyond 2^20.  With a failed lookup the same is made of whatever
    [pageInfo] held. *)
Theorem makeVirtPhysPage_address (a : PageAnswer) :
  fst (makeVirtPhysPage a) = valloc_page a ∧
  0 <= snd (makeVirtPhysPage a) < 2 ^ 32 ∧
  snd (makeVirtPhysPage a) mod PAGE_SIZE = 0 ∧
  (∀ v, 0 <= pagemap_open a → pagemap_read a = Some v →
        snd (makeVirtPhysPage a) = (v mod 2 ^ 20) * PAGE_SIZE) ∧
  (pagemap_failed a →
     snd (makeVirtPhysPage a) = (pageInfo_uninit a mod 2 ^ 20) * PAGE_SIZE).
Proof.
  split; [done |]. split; [apply makeVirtPhysPage_range |].
  split; [apply makeVirtPhysPage_range |].
  unfold makeVirtPhysPage. simpl. rewrite wrap32_wrap64_mul_page. split.
  - intros v Hopen Hread.
    by rewrite (proj2 (Z.ltb_ge _ _) Hopen), Hread.
  - intros [Hopen | Hread].
    + by rewrite (proj2 (Z.ltb_lt _ _) Hopen).
    + rewrite Hread. by destruct (_ <? _).
Qed.

End DmaGpioPages.

Section DmaGpioRun.

Import DmaGpio DmaGpioProps.
Local Open Scope Z_scope.


(** X14.  [main] ends with 1 exactly when /dev/mem cannot be opened or one
    of the three peripheral pages cannot be mapped, and it never ends with
    anything but 0 and 1. *)
Theorem main_exits_with_1_iff e fuel :
  (fst (main e fuel) = Exited 1 ↔
     open_devmem e < 0 ∨ mmap_gpio e = None ∨ mmap_dma e = None ∨
     mmap_timer e = None) ∧
  (∀ c, fst (main e fuel) = Exited c → c = 0 ∨ c = 1).
Proof.
  unfold main.
  destruct (Z.ltb_spec (open_devmem e) 0) as [Hneg | Hpos]; simpl.
  { split; [split; auto | intros c [= <-]; auto]. }
  destruct (mmap_gpio e) as [g|]; simpl;
    [| split; [split; auto | intros c [= <-]; auto]].
  destruct (mmap_dma e) as [d|]; simpl;
    [| split; [split; auto | intros c [= <-]; auto]].
  destruct (mmap_timer e) as [t|]; simpl;
    [| split; [split; auto | intros c [= <-]; auto]].
  destruct (dma_accessible e DMAENABLE); simpl;
    [| split; [split; [done | intros [? | [? | [? | ?]]]; (lia || done)] | done]].
  destruct (wait_inactive _ _ _) as [out | []] eqn:Hwait; simpl.
  - destruct (wait_inactive_outcome (cs_reads e) fuel 0%nat) as [H | H];
      rewrite H in Hwait; [done |]. injection Hwait as <-.
    split; [split; [done | intros [? | [? | [? | ?]]]; (lia || done)] | done].
  - split; [split; [done | intros [? | [? | [? | ?]]]; (lia || done)] |].
    intros c [= <-]. auto.
Qed.




(** The same run with nothing mapped past the DMA page is killed. *)
Example main_faults_when_unmapped :
  dma_accessible env_unmapped DMAENABLE = false ∧
  fst (main env_unmapped 3) = Faulted.
Proof. by vm_compute. Qed.

End DmaGpioRun.

Section DmaGpioRegisters.

Import DmaGpio DmaGpioProps.
Local Open Scope Z_scope.








(** X18.  [readSysTime] puts the word at [timerBaseMem + TIMER_CHI] above the
    word at [timerBaseMem + TIMER_CLO]: for 32-bit words the result is
    [hi * 2^32 + lo], a 64-bit value from which both words are read back,
    and two results compare as the pairs (hi, lo) do. *)
Theorem readSysTime_parts (timer : gmap Z Z) :
  uint32 (load timer TIMER_CHI) →
  uint32 (load timer TIMER_CLO) →
  readSysTime timer = load timer TIMER_CHI * 2 ^ 32 + load timer TIMER_CLO ∧
  0 <= readSysTime timer < 2 ^ 64 ∧
  readSysTime timer / 2 ^ 32 = load timer TIMER_CHI ∧
  readSysTime timer mod 2 ^ 32 = load timer TIMER_CLO ∧
  (∀ timer', uint32 (load timer' TIMER_CHI) → uint32 (load timer' TIMER_CLO) →
     (readSysTime timer < readSysTime timer' ↔
      load timer TIMER_CHI < load timer' TIMER_CHI ∨
      (load timer TIMER_CHI = load timer' TIMER_CHI ∧
       load timer TIMER_CLO < load timer' TIMER_CLO))).
Proof.
  assert (Hval : ∀ m, uint32 (load m TIMER_CHI) → uint32 (load m TIMER_CLO) →
            readSysTime m = load m TIMER_CHI * 2 ^ 32 + load m TIMER_CLO).
  { intros m [Hh1 Hh2] [Hl1 Hl2]. unfold readSysTime, wrap64.
    rewrite Z.shiftl_mul_pow2 by lia.
    rewrite (Z.mod_small (_ * _)) by nia.
    apply Z.mod_small. nia. }
  intros Hhi Hlo. rewrite (Hval timer Hhi Hlo).
  destruct Hhi as [Hh1 Hh2], Hlo as [Hl1 Hl2].
  split; [done |]. split; [nia |]. split; [| split].
  - rewrite Z.div_add_l by lia. rewrite Z.div_small by lia. lia.
  - rewrite Z.add_comm, Z_mod_plus_full. by apply Z.mod_small.
  - intros timer' Hhi' Hlo'. rewrite (Hval timer' Hhi' Hlo').
    destruct Hhi' as [? ?], Hlo' as [? ?]. nia.
Qed.

Lemma readSysTime_parts_witness :
  let timer : gmap Z Z := {[ TIMER_CHI := 2; TIMER_CLO := 5 ]} in
  uint32 (load timer TIMER_CHI) ∧
  uint32 (load timer TIMER_CLO) ∧
  readSysTime timer = 2 * 2 ^ 32 + 5.
Proof.
  pose (timer := ({[ TIMER_CHI := 2; TIMER_CLO := 5 ]} : gmap Z Z)).
  assert (H1 : uint32 (load timer TIMER_CHI)) by (by vm_compute).
  assert (H2 : uint32 (load timer TIMER_CLO)) by (by vm_compute).
  exact (conj H1 (conj H2 (proj1 (readSysTime_parts timer H1 H2)))).
Defined.

End DmaGpioRegisters.
